(** * The Mallinson closed-form solution of the macrospin LLG problem

    A shallow embedding of [simplellg/mallinson.py] and the properties of
    its analytic solver.

    Number model.  The Python code computes with [float].  Here a float is
    idealised as a real number ([R] of the Standard Library): the arithmetic
    is exact and no overflow, infinity or NaN is modelled.  One effect of
    binary64 rounding is kept, because it changes the range of a result:
    the float remainder [x % y] is [y] itself when the exact remainder is
    within half an ulp of [y] (see [Py.mod_]).  Python's partiality is kept
    as well: a division by zero raises [ZeroDivisionError], [math.log] of a
    non-positive number raises [ValueError], indexing an empty list raises
    [IndexError].  Every function that can raise returns a [result]. *)

From Stdlib Require Import Reals Lra Lia ZArith List.
Import ListNotations.

Local Open Scope R_scope.

(** ** Exceptions and the error monad *)

Inductive pyerror : Type :=
| ZeroDivisionError   (* float division by zero *)
| ValueError          (* math domain error; bad argument of a library call *)
| IndexError.         (* list index out of range *)

Inductive result (A : Type) : Type :=
| Ok (a : A)
| Err (e : pyerror).

Arguments Ok {A} a.
Arguments Err {A} e.

Definition bind {A B : Type} (m : result A) (k : A -> result B) : result B :=
  match m with
  | Ok a => k a
  | Err e => Err e
  end.

Declare Scope result_scope.
Delimit Scope result_scope with result.
Notation "x <- m ;; k" := (bind m (fun x => k))
  (at level 61, m at next level, right associativity) : result_scope.
Local Open Scope result_scope.

(** A list comprehension [[f(x) for x in l]]: the elements are evaluated
    from left to right and the first exception ends the evaluation. *)
Fixpoint mapM {A B : Type} (f : A -> result B) (l : list A) : result (list B) :=
  match l with
  | [] => Ok []
  | x :: l' =>
      y <- f x ;;
      ys <- mapM f l' ;;
      Ok (y :: ys)
  end.

(** ** Python's float operations over the reals *)

Module Py.

(** [x / y] under [from __future__ import division]. *)
Definition div (x y : R) : result R :=
  if Req_dec_T y 0 then Err ZeroDivisionError else Ok (x / y).

(** [math.log(x)]. *)
Definition log (x : R) : result R :=
  if Rlt_dec 0 x then Ok (ln x) else Err ValueError.

(** [math.tan(x)].  No float is a pole of the tangent, so [math.tan]
    never raises; a real argument with [cos x = 0] has no tangent and is
    treated here as a math domain error. *)
Definition tan (x : R) : result R :=
  if Req_dec_T (cos x) 0 then Err ValueError else Ok (Rtrigo1.tan x).

(** Half the spacing of the binary64 floats around [y]:
    [2 ^ (floor (log2 |y|) - 53)]. *)
Definition half_ulp (y : R) : R :=
  powerRZ 2 (Zfloor (ln (Rabs y) / ln 2) - 53).

(** [x % y] on floats: the remainder takes the sign of [y].  The
    interpreter computes [fmod(x, y)], exact and with the sign of [x], and
    adds [y] to it when the two signs differ.  That sum is a float
    addition: when the exact remainder is within half an ulp of [y] the
    nearest float is [y] itself (a tie goes to the even float, which
    [2*pi] is), and [y] is the result.  When the signs agree no float has
    a remainder that close to [y], so the rule is stated on the remainder
    alone. *)
Definition mod_ (x y : R) : result R :=
  if Req_dec_T y 0 then Err ZeroDivisionError
  else
    let m := x - y * IZR (Zfloor (x / y)) in
    if Rle_dec (Rabs (y - m)) (half_ulp y) then Ok y else Ok m.

End Py.

(** ** Data *)

(** [utils.MagParameters], seen through the four accessors the solver
    reads: [H(None)], [Hk()], [alpha] and [gamma]. *)
Record MagParameters : Type := mkMagParameters {
  H : R;
  Hk : R;
  alpha : R;
  gamma : R
}.

(** [utils.SphPoint(r, azi, pol)]. *)
Record SphPoint : Type := mkSphPoint {
  r : R;
  azi : R;
  pol : R
}.

(** ** The solver *)

Definition calculate_switching_time
    (magnetic_parameters : MagParameters) (p_start p_now : R) : result R :=
  let H := H magnetic_parameters in
  let Hk := Hk magnetic_parameters in
  let alpha := alpha magnetic_parameters in
  let gamma := gamma magnetic_parameters in
  q1 <- Py.div (alpha ^ 2 + 1) (gamma * alpha) ;;
  q2 <- Py.div 1 (H ^ 2 - Hk ^ 2) ;;
  let prefactor := q1 * q2 in
  t_now <- Py.tan (p_now / 2) ;;
  t_start <- Py.tan (p_start / 2) ;;
  ra <- Py.div t_now t_start ;;
  la <- Py.log ra ;;
  let a := H * la in
  rb <- Py.div (H - Hk * cos p_start) (H - Hk * cos p_now) ;;
  lb <- Py.log rb ;;
  let b := Hk * lb in
  rc <- Py.div (sin p_now) (sin p_start) ;;
  lc <- Py.log rc ;;
  let c := Hk * lc in
  Ok (prefactor * (a + b + c)).

Definition azi_into_range (azi : R) : result R :=
  a <- Py.mod_ azi (2 * PI) ;;
  if Rlt_dec a 0 then Ok (a + 2 * PI) else Ok a.

Definition calculate_azimuthal
    (magnetic_parameters : MagParameters) (p_start p_now : R) : result R :=
  let alpha := alpha magnetic_parameters in
  q <- Py.div (-1) alpha ;;
  t_now <- Py.tan (p_now / 2) ;;
  t_start <- Py.tan (p_start / 2) ;;
  ra <- Py.div t_now t_start ;;
  la <- Py.log ra ;;
  let no_range_azi := q * la in
  azi_into_range no_range_azi.

(** Modelled from the spec: [scipy.linspace] is a routine of the numeric
    library, outside the repository.  It builds [num] equally spaced
    samples from [start] to [stop] inclusive: none for [num = 0], [start]
    alone for [num = 1], and otherwise [i * step + start] with
    [step = (stop - start) / (num - 1)], the last sample being set to
    [stop] itself.  The library rejects a negative [num] with
    [ValueError]. *)
Definition linspace (start stop : R) (num : Z) : result (list R) :=
  if (num <? 0)%Z then Err ValueError
  else match Z.to_nat num with
       | O => Ok []
       | S O => Ok [start]
       | S n =>
           let step := (stop - start) / INR n in
           Ok (map (fun i => INR i * step + start) (seq 0 n) ++ [stop])
       end.

Definition generate_dynamics
    (magnetic_parameters : MagParameters) (start_angle end_angle : R)
    (steps : Z) : result (list SphPoint * list R) :=
  let mag_params := magnetic_parameters in
  pols <- linspace start_angle end_angle steps ;;
  azis <- mapM (fun p => calculate_azimuthal mag_params start_angle p) pols ;;
  let sphs := map (fun '(azi, pol) => mkSphPoint 1 azi pol) (combine azis pols) in
  times <- mapM (fun p => calculate_switching_time mag_params start_angle p) pols ;;
  Ok (sphs, times).

Definition calculate_equivalent_dynamics
    (magnetic_parameters : MagParameters) (polars : list R)
    : result (list R * list R) :=
  match polars with
  | [] => Err IndexError
  | start_angle :: _ =>
      let f_times := calculate_switching_time magnetic_parameters start_angle in
      exact_times <- mapM f_times polars ;;
      let f_azi := calculate_azimuthal magnetic_parameters start_angle in
      exact_azis <- mapM f_azi polars ;;
      Ok (exact_times, exact_azis)
  end.



(** The assertion of [MallinsonSolverCheckerBase.test_increasing_time],
    over [zip(self.times, self.times[1:])]. *)
Definition test_increasing_time (times : list R) : Prop :=
  Forall (fun ab => snd ab > fst ab) (combine times (tl times)).

(** A relation holding between every element of a list and the next. *)
Fixpoint adjacent {A : Type} (rel : A -> A -> Prop) (l : list A) : Prop :=
  match l with
  | [] => True
  | x :: l' =>
      match l' with
      | [] => True
      | y :: _ => rel x y /\ adjacent rel l'
      end
  end.

(** ** The spec's closed form

    The formula of the specification, written with the total operations of
    the real numbers, and the condition under which every division and
    logarithm in it is defined for polar angles inside (0, pi). *)

Definition switching_time_formula (mp : MagParameters) (p_start p_now : R) : R :=
  let prefactor :=
    ((alpha mp ^ 2 + 1) / (gamma mp * alpha mp)) * (1 / (H mp ^ 2 - Hk mp ^ 2)) in
  let a := H mp * ln (tan (p_now / 2) / tan (p_start / 2)) in
  let b := Hk mp * ln ((H mp - Hk mp * cos p_start) / (H mp - Hk mp * cos p_now)) in
  let c := Hk mp * ln (sin p_now / sin p_start) in
  prefactor * (a + b + c).

Definition formula_defined (mp : MagParameters) (p_start p_now : R) : Prop :=
  gamma mp * alpha mp <> 0 /\
  H mp ^ 2 - Hk mp ^ 2 <> 0 /\
  H mp - Hk mp * cos p_now <> 0 /\
  0 < (H mp - Hk mp * cos p_start) / (H mp - Hk mp * cos p_now).

(** The raw azimuth, the exact remainder and the value of the float
    remainder [x % y] for a non-zero [y]. *)
Definition raw_azimuth (alpha p_start p_now : R) : R :=
  (-1 / alpha) * ln (tan (p_now / 2) / tan (p_start / 2)).

Definition real_mod (x y : R) : R := x - y * IZR (Zfloor (x / y)).

Definition float_mod (x y : R) : R :=
  if Rle_dec (Rabs (y - real_mod x y)) (Py.half_ulp y) then y else real_mod x y.

(** The constraints of the data model on a parameter set: field magnitudes
    are non-negative, the damping is positive and the gyromagnetic ratio is
    not zero. *)
Definition wf_params (mp : MagParameters) : Prop :=
  0 <= H mp /\ 0 <= Hk mp /\ 0 < alpha mp /\ gamma mp <> 0.

(** * Properties *)

(** ** The primitive operations *)

Lemma div_ok (x y : R) : y <> 0 -> Py.div x y = Ok (x / y).
Proof.
  intros Hy. unfold Py.div. destruct (Req_dec_T y 0) as [E|_]; [contradiction|reflexivity].
Qed.

Lemma div_zero (x y : R) : y = 0 -> Py.div x y = Err ZeroDivisionError.
Proof.
  intros Hy. unfold Py.div. destruct (Req_dec_T y 0) as [_|N]; [reflexivity|contradiction].
Qed.

Lemma log_ok (x : R) : 0 < x -> Py.log x = Ok (ln x).
Proof.
  intros Hx. unfold Py.log. destruct (Rlt_dec 0 x) as [_|N]; [reflexivity|contradiction].
Qed.

Lemma log_domain (x : R) : ~ 0 < x -> Py.log x = Err ValueError.
Proof.
  intros Hx. unfold Py.log. destruct (Rlt_dec 0 x) as [P|_]; [contradiction|reflexivity].
Qed.

Lemma tan_ok (x : R) : cos x <> 0 -> Py.tan x = Ok (tan x).
Proof.
  intros Hx. unfold Py.tan. destruct (Req_dec_T (cos x) 0) as [E|_]; [contradiction|reflexivity].
Qed.

Lemma mod_ok (x y : R) : y <> 0 -> Py.mod_ x y = Ok (float_mod x y).
Proof.
  intros Hy. unfold Py.mod_, float_mod, real_mod.
  destruct (Req_dec_T y 0) as [E|_]; [contradiction|]. cbv zeta.
  destruct (Rle_dec (Rabs (y - (x - y * IZR (Zfloor (x / y))))) (Py.half_ulp y));
    reflexivity.
Qed.

(** The remainder by a positive modulus lies in [[0, y)] and differs from
    the argument by a whole number of periods. *)
Lemma real_mod_bound (x y : R) : 0 < y -> 0 <= real_mod x y < y.
Proof.
  intros Hy. unfold real_mod.
  pose proof (Zfloor_bound (x / y)) as [Hlo Hhi].
  assert (Hx : x = y * (x / y)) by (field; lra).
  split.
  - apply Rmult_le_compat_l with (r := y) in Hlo; lra.
  - apply Rmult_lt_compat_l with (r := y) in Hhi; lra.
Qed.

Lemma real_mod_small (x y : R) : 0 <= x < y -> real_mod x y = x.
Proof.
  intros [Hlo Hhi]. unfold real_mod.
  assert (Hy : 0 < y) by lra.
  rewrite (Zfloor_eq 0 (x / y)).
  - lra.
  - split.
    + apply Rmult_le_reg_r with (r := y); [exact Hy|].
      replace (x / y * y) with x by (field; lra). lra.
    + apply Rmult_lt_reg_r with (r := y); [exact Hy|].
      replace (x / y * y) with x by (field; lra). lra.
Qed.

(** ** The float remainder by a full turn *)

Lemma PI_bounds : 3 < PI < 4.
Proof.
  split.
  - pose proof PI2_3_2. lra.
  - unfold PI. destruct pi2_int. lra.
Qed.

Lemma ln_2_pos : 0 < ln 2.
Proof. rewrite <- ln_1. apply ln_increasing; lra. Qed.

Lemma half_ulp_2PI : Py.half_ulp (2 * PI) = / 2 ^ 51.
Proof.
  destruct PI_bounds as [Hlo Hhi]. pose proof ln_2_pos as Hl2.
  unfold Py.half_ulp. rewrite Rabs_pos_eq by lra.
  assert (Hfl : Zfloor (ln (2 * PI) / ln 2) = 2%Z).
  { apply Zfloor_eq.
    assert (H4 : ln 4 = 2 * ln 2).
    { replace 4 with (2 * 2) by lra. rewrite ln_mult by lra. ring. }
    assert (H8 : ln 8 = 3 * ln 2).
    { replace 8 with (2 * (2 * 2)) by lra. rewrite !ln_mult by lra. ring. }
    assert (Hge : ln 4 < ln (2 * PI)) by (apply ln_increasing; lra).
    assert (Hlt : ln (2 * PI) < ln 8) by (apply ln_increasing; lra).
    split.
    - apply Rmult_le_reg_r with (r := ln 2); [exact Hl2|].
      replace (ln (2 * PI) / ln 2 * ln 2) with (ln (2 * PI)) by (field; lra). lra.
    - apply Rmult_lt_reg_r with (r := ln 2); [exact Hl2|].
      replace (ln (2 * PI) / ln 2 * ln 2) with (ln (2 * PI)) by (field; lra). lra. }
  rewrite Hfl. change (2 - 53)%Z with (- 51)%Z.
  reflexivity.
Qed.

Lemma half_ulp_small : 0 < / 2 ^ 51 < 1.
Proof.
  assert (H1 : 1 < 2 ^ 51) by (apply Rlt_pow_R1; [lra|lia]).
  split.
  - apply Rinv_0_lt_compat. lra.
  - rewrite <- Rinv_1. apply Rinv_lt_contravar; lra.
Qed.

(** The result on the modulus 2pi: the exact remainder, or 2pi itself
    when the remainder is within half an ulp of it. *)
Lemma float_mod_turn (x : R) :
  (2 * PI - real_mod x (2 * PI) <= / 2 ^ 51 /\ float_mod x (2 * PI) = 2 * PI) \/
  (/ 2 ^ 51 < 2 * PI - real_mod x (2 * PI) /\
   float_mod x (2 * PI) = real_mod x (2 * PI)).
Proof.
  destruct PI_bounds as [Hlo Hhi].
  pose proof (real_mod_bound x (2 * PI)) as Hb.
  assert (H2 : 0 < 2 * PI) by lra. apply Hb in H2. clear Hb.
  unfold float_mod. rewrite half_ulp_2PI.
  rewrite Rabs_pos_eq by lra.
  destruct (Rle_dec (2 * PI - real_mod x (2 * PI)) (/ 2 ^ 51)) as [Hle|Hgt].
  - left. split; [exact Hle|reflexivity].
  - right. split; [lra|reflexivity].
Qed.

Lemma float_mod_range (x : R) : 0 <= float_mod x (2 * PI) <= 2 * PI.
Proof.
  destruct PI_bounds as [Hlo Hhi].
  pose proof (real_mod_bound x (2 * PI)) as Hb.
  assert (H2 : 0 < 2 * PI) by lra. apply Hb in H2.
  destruct (float_mod_turn x) as [[_ ->]|[_ ->]]; lra.
Qed.

Lemma float_mod_exact (x : R) :
  0 <= x -> / 2 ^ 51 < 2 * PI - x -> float_mod x (2 * PI) = x.
Proof.
  intros Hx Hgap. pose proof half_ulp_small as [Hh0 Hh1].
  assert (Hr : real_mod x (2 * PI) = x).
  { unfold real_mod. rewrite (Zfloor_eq 0 (x / (2 * PI))); [lra|].
    destruct PI_bounds as [Hlo Hhi]. split.
    - apply Rmult_le_reg_r with (r := 2 * PI); [lra|].
      replace (x / (2 * PI) * (2 * PI)) with x by (field; lra). lra.
    - apply Rmult_lt_reg_r with (r := 2 * PI); [lra|].
      replace (x / (2 * PI) * (2 * PI)) with x by (field; lra). lra. }
  destruct (float_mod_turn x) as [[Hle _]|[_ E]].
  - rewrite Hr in Hle. lra.
  - rewrite E. exact Hr.
Qed.

Lemma float_mod_tiny_negative (x : R) :
  - / 2 ^ 51 <= x -> x < 0 -> float_mod x (2 * PI) = 2 * PI.
Proof.
  intros Hlo Hneg. pose proof half_ulp_small as [Hh0 Hh1].
  destruct PI_bounds as [Hp3 Hp4].
  assert (Hr : real_mod x (2 * PI) = x + 2 * PI).
  { unfold real_mod. rewrite (Zfloor_eq (-1) (x / (2 * PI))); [lra|].
    split.
    - apply Rmult_le_reg_r with (r := 2 * PI); [lra|].
      replace (x / (2 * PI) * (2 * PI)) with x by (field; lra). lra.
    - apply Rmult_lt_reg_r with (r := 2 * PI); [lra|].
      replace (x / (2 * PI) * (2 * PI)) with x by (field; lra). lra. }
  destruct (float_mod_turn x) as [[_ E]|[Hgt _]].
  - exact E.
  - rewrite Hr in Hgt. lra.
Qed.

(** ** Polar angles inside (0, pi) *)

Lemma half_angle_range (p : R) : 0 < p < PI -> 0 < p / 2 < PI / 2.
Proof. intros [Hlo Hhi]. split; lra. Qed.

Lemma cos_half_pos (p : R) : 0 < p < PI -> 0 < cos (p / 2).
Proof.
  intros Hp. apply half_angle_range in Hp. destruct Hp as [Hlo Hhi].
  apply cos_gt_0; lra.
Qed.

Lemma sin_half_pos (p : R) : 0 < p < PI -> 0 < sin (p / 2).
Proof.
  intros Hp. apply half_angle_range in Hp. destruct Hp as [Hlo Hhi].
  pose proof PI_RGT_0. apply sin_gt_0; lra.
Qed.

Lemma tan_half_pos (p : R) : 0 < p < PI -> 0 < tan (p / 2).
Proof.
  intros Hp. apply half_angle_range in Hp. destruct Hp as [Hlo Hhi].
  apply tan_gt_0; lra.
Qed.

Lemma sin_polar_pos (p : R) : 0 < p < PI -> 0 < sin p.
Proof. intros [Hlo Hhi]. apply sin_gt_0; lra. Qed.

Lemma PI2_polar : 0 < PI / 2 < PI.
Proof. pose proof PI_RGT_0. split; lra. Qed.

(** ** The switching time *)

(** Inside (0, pi) the two tangent evaluations and the logarithms of the
    tangent and sine ratios always succeed: what is left of the evaluation
    is the prefactor and the field term [b]. *)
Lemma switching_time_unfold (mp : MagParameters) (p_start p_now : R) :
  0 < p_start < PI -> 0 < p_now < PI ->
  calculate_switching_time mp p_start p_now =
    (q1 <- Py.div (alpha mp ^ 2 + 1) (gamma mp * alpha mp) ;;
     q2 <- Py.div 1 (H mp ^ 2 - Hk mp ^ 2) ;;
     rb <- Py.div (H mp - Hk mp * cos p_start) (H mp - Hk mp * cos p_now) ;;
     lb <- Py.log rb ;;
     Ok (q1 * q2 *
         (H mp * ln (tan (p_now / 2) / tan (p_start / 2))
          + Hk mp * lb
          + Hk mp * ln (sin p_now / sin p_start)))).
Proof.
  intros Hs Hn. unfold calculate_switching_time.
  pose proof (cos_half_pos _ Hs) as Hcs. pose proof (cos_half_pos _ Hn) as Hcn.
  pose proof (tan_half_pos _ Hs) as Hts. pose proof (tan_half_pos _ Hn) as Htn.
  pose proof (sin_polar_pos _ Hs) as Hss. pose proof (sin_polar_pos _ Hn) as Hsn.
  destruct (Py.div (alpha mp ^ 2 + 1) (gamma mp * alpha mp)) as [q1|e1]; [|reflexivity].
  destruct (Py.div 1 (H mp ^ 2 - Hk mp ^ 2)) as [q2|e2]; [|reflexivity].
  cbn [bind].
  rewrite (tan_ok (p_now / 2)) by lra.
  rewrite (tan_ok (p_start / 2)) by lra. cbn [bind].
  rewrite (div_ok (tan (p_now / 2))) by lra. cbn [bind].
  rewrite (log_ok (tan (p_now / 2) / tan (p_start / 2)))
    by (apply Rdiv_lt_0_compat; assumption).
  cbn [bind].
  destruct (Py.div (H mp - Hk mp * cos p_start) (H mp - Hk mp * cos p_now))
    as [rb|e3]; [|reflexivity].
  cbn [bind].
  destruct (Py.log rb) as [lb|e4]; [|reflexivity].
  cbn [bind].
  rewrite (div_ok (sin p_now)) by lra. cbn [bind].
  rewrite (log_ok (sin p_now / sin p_start))
    by (apply Rdiv_lt_0_compat; assumption).
  reflexivity.
Qed.

Lemma switching_time_defined (mp : MagParameters) (p_start p_now : R) :
  0 < p_start < PI -> 0 < p_now < PI ->
  formula_defined mp p_start p_now ->
  calculate_switching_time mp p_start p_now =
    Ok (switching_time_formula mp p_start p_now).
Proof.
  intros Hs Hn (Hga & Hden & Hb & Hrb).
  rewrite switching_time_unfold by assumption.
  rewrite !div_ok by assumption. cbn [bind].
  rewrite log_ok by assumption. cbn [bind].
  reflexivity.
Qed.

Lemma switching_time_undefined (mp : MagParameters) (p_start p_now : R) :
  0 < p_start < PI -> 0 < p_now < PI ->
  ~ formula_defined mp p_start p_now ->
  exists e, calculate_switching_time mp p_start p_now = Err e.
Proof.
  intros Hs Hn Hnot.
  rewrite switching_time_unfold by assumption.
  unfold formula_defined in Hnot.
  destruct (Req_dec_T (gamma mp * alpha mp) 0) as [E1|N1].
  { rewrite (div_zero _ _ E1). eexists; reflexivity. }
  rewrite (div_ok _ _ N1). cbn [bind].
  destruct (Req_dec_T (H mp ^ 2 - Hk mp ^ 2) 0) as [E2|N2].
  { rewrite (div_zero _ _ E2). eexists; reflexivity. }
  rewrite (div_ok _ _ N2). cbn [bind].
  destruct (Req_dec_T (H mp - Hk mp * cos p_now) 0) as [E3|N3].
  { rewrite (div_zero _ _ E3). eexists; reflexivity. }
  rewrite (div_ok _ _ N3). cbn [bind].
  destruct (Rlt_dec 0 ((H mp - Hk mp * cos p_start) / (H mp - Hk mp * cos p_now)))
    as [P4|N4].
  { exfalso. apply Hnot. repeat split; assumption. }
  rewrite (log_domain _ N4). eexists; reflexivity.
Qed.

(** C1.  For polar angles inside (0, pi), [calculate_switching_time]
    returns exactly [prefactor * (a + b + c)] of the closed form: whenever
    it returns a value, the value is the formula; it returns one for every
    parameter set on which the formula's divisions and logarithm are
    defined, and raises on the others. *)
Theorem calculate_switching_time_closed_form
    (mp : MagParameters) (p_start p_now : R) :
  0 < p_start < PI -> 0 < p_now < PI ->
  (forall v, calculate_switching_time mp p_start p_now = Ok v ->
             v = switching_time_formula mp p_start p_now) /\
  (formula_defined mp p_start p_now ->
     calculate_switching_time mp p_start p_now =
       Ok (switching_time_formula mp p_start p_now)) /\
  (~ formula_defined mp p_start p_now ->
     exists e, calculate_switching_time mp p_start p_now = Err e).
Proof.
  intros Hs Hn. split; [|split].
  - intros v Hv.
    destruct (Req_dec_T (gamma mp * alpha mp) 0) as [E1|N1].
    { destruct (switching_time_undefined mp p_start p_now Hs Hn) as [e He].
      - intros (C & _). contradiction.
      - congruence. }
    destruct (Req_dec_T (H mp ^ 2 - Hk mp ^ 2) 0) as [E2|N2].
    { destruct (switching_time_undefined mp p_start p_now Hs Hn) as [e He].
      - intros (_ & C & _). contradiction.
      - congruence. }
    destruct (Req_dec_T (H mp - Hk mp * cos p_now) 0) as [E3|N3].
    { destruct (switching_time_undefined mp p_start p_now Hs Hn) as [e He].
      - intros (_ & _ & C & _). contradiction.
      - congruence. }
    destruct (Rlt_dec 0 ((H mp - Hk mp * cos p_start) / (H mp - Hk mp * cos p_now)))
      as [P4|N4].
    + rewrite switching_time_defined in Hv by (try assumption; repeat split; assumption).
      congruence.
    + destruct (switching_time_undefined mp p_start p_now Hs Hn) as [e He].
      * intros (_ & _ & _ & C). contradiction.
      * congruence.
  - apply switching_time_defined; assumption.
  - apply switching_time_undefined; assumption.
Qed.

Lemma calculate_switching_time_closed_form_witness :
  0 < PI / 18 < PI /\ 0 < PI / 2 < PI /\
  calculate_switching_time (mkMagParameters (11 / 10) 1 (1 / 100) 1)
    (PI / 18) (PI / 2)
  = Ok (switching_time_formula (mkMagParameters (11 / 10) 1 (1 / 100) 1)
          (PI / 18) (PI / 2)).
Proof.
  pose proof PI_RGT_0 as Hpi.
  assert (Hs : 0 < PI / 18 < PI) by (split; lra).
  assert (Hn : 0 < PI / 2 < PI) by (split; lra).
  split; [exact Hs|]. split; [exact Hn|].
  destruct (calculate_switching_time_closed_form
              (mkMagParameters (11 / 10) 1 (1 / 100) 1) (PI / 18) (PI / 2) Hs Hn)
    as (_ & Hdef & _).
  apply Hdef. unfold formula_defined. cbn [H Hk alpha gamma].
  pose proof (COS_bound (PI / 18)) as [_ Hc].
  rewrite cos_PI2.
  repeat split; lra.
Defined.

(** No time passes between a polar angle and itself, on any parameter set
    for which the prefactor and the field term are defined. *)
Lemma switching_time_same_angle (mp : MagParameters) (p : R) :
  0 < p < PI ->
  gamma mp * alpha mp <> 0 ->
  H mp ^ 2 - Hk mp ^ 2 <> 0 ->
  H mp - Hk mp * cos p <> 0 ->
  calculate_switching_time mp p p = Ok 0.
Proof.
  intros Hp Hga Hden Hb.
  pose proof (tan_half_pos _ Hp) as Ht. pose proof (sin_polar_pos _ Hp) as Hs.
  assert (Hone : (H mp - Hk mp * cos p) / (H mp - Hk mp * cos p) = 1)
    by (field; assumption).
  rewrite switching_time_defined; try assumption.
  - f_equal. unfold switching_time_formula. rewrite Hone.
    replace (tan (p / 2) / tan (p / 2)) with 1 by (field; lra).
    replace (sin p / sin p) with 1 by (field; lra).
    rewrite ln_1. ring.
  - repeat split; try assumption. rewrite Hone. lra.
Qed.

(** A well-formed parameter set whose applied field exceeds the anisotropy
    field keeps the prefactor and the field term away from zero. *)
Lemma supercritical_prefactor (mp : MagParameters) :
  wf_params mp -> H mp > Hk mp ->
  gamma mp * alpha mp <> 0 /\ 0 < H mp ^ 2 - Hk mp ^ 2.
Proof.
  intros (HH & HHk & Ha & Hg) Hsup. split.
  - apply Rmult_integral_contrapositive_currified; lra.
  - nra.
Qed.

Lemma supercritical_field_term (mp : MagParameters) (p : R) :
  wf_params mp -> H mp > Hk mp -> 0 < H mp - Hk mp * cos p.
Proof.
  intros (HH & HHk & Ha & Hg) Hsup.
  pose proof (COS_bound p) as [_ Hc]. nra.
Qed.

(** C2, as amended.  There is no check of the applied field against the
    anisotropy field, and no error of its own for a subcritical field.
    When [H = Hk] the request fails, with the [ZeroDivisionError] of the
    prefactor [1 / (H^2 - Hk^2)].  When [H < Hk] and the polar angles are
    inside (0, pi), the closed form is evaluated as for any other
    parameters: its value is returned when its divisions and logarithm are
    defined, and the call raises otherwise. *)
Theorem subcritical_field_is_not_checked
    (mp : MagParameters) (p_start p_now : R) :
  H mp <= Hk mp ->
  (H mp = Hk mp ->
     calculate_switching_time mp p_start p_now = Err ZeroDivisionError) /\
  (H mp < Hk mp -> 0 < p_start < PI -> 0 < p_now < PI ->
     (formula_defined mp p_start p_now ->
        calculate_switching_time mp p_start p_now =
          Ok (switching_time_formula mp p_start p_now)) /\
     (~ formula_defined mp p_start p_now ->
        exists e, calculate_switching_time mp p_start p_now = Err e)).
Proof.
  intros _. split.
  - intros Heq. unfold calculate_switching_time.
    destruct (Req_dec_T (gamma mp * alpha mp) 0) as [E1|N1].
    + rewrite (div_zero _ _ E1). reflexivity.
    + rewrite (div_ok _ _ N1). cbn [bind].
      rewrite (div_zero 1 (H mp ^ 2 - Hk mp ^ 2)) by (rewrite Heq; ring).
      reflexivity.
  - intros _ Hs Hn. split.
    + apply switching_time_defined; assumption.
    + apply switching_time_undefined; assumption.
Qed.

Lemma subcritical_field_is_not_checked_witness :
  H (mkMagParameters 1 1 1 1) <= Hk (mkMagParameters 1 1 1 1) /\
  calculate_switching_time (mkMagParameters 1 1 1 1) (PI / 18) (PI / 2)
    = Err ZeroDivisionError.
Proof.
  assert (Hle : H (mkMagParameters 1 1 1 1) <= Hk (mkMagParameters 1 1 1 1))
    by (cbn [H Hk]; lra).
  split; [exact Hle|].
  destruct (subcritical_field_is_not_checked
              (mkMagParameters 1 1 1 1) (PI / 18) (PI / 2) Hle) as [Hcrit _].
  apply Hcrit. reflexivity.
Defined.

(** C2, the claim as stated fails: with [H = 0.9] and [Hk = 1.0] the
    switching time from the equator to itself is returned, and is 0. *)
Lemma subcritical_field_returns :
  calculate_switching_time (mkMagParameters (9 / 10) 1 1 1) (PI / 2) (PI / 2) = Ok 0 /\
  ~ (exists e,
       calculate_switching_time (mkMagParameters (9 / 10) 1 1 1) (PI / 2) (PI / 2)
         = Err e).
Proof.
  assert (E : calculate_switching_time
                (mkMagParameters (9 / 10) 1 1 1) (PI / 2) (PI / 2) = Ok 0).
  { apply switching_time_same_angle; cbn [H Hk alpha gamma].
    - exact PI2_polar.
    - lra.
    - lra.
    - rewrite cos_PI2. lra. }
  split; [exact E|].
  intros [e He]. rewrite E in He. discriminate He.
Qed.

(** ** The azimuth *)

(** The guard [a < 0] never fires: the remainder by [2*pi] is not
    negative. *)
Lemma azi_into_range_ok (x : R) : azi_into_range x = Ok (float_mod x (2 * PI)).
Proof.
  pose proof PI_RGT_0 as Hpi.
  unfold azi_into_range. rewrite mod_ok by lra. cbn [bind].
  pose proof (float_mod_range x) as Hb.
  destruct (Rlt_dec (float_mod x (2 * PI)) 0) as [Hneg|_]; [|reflexivity].
  exfalso. lra.
Qed.

Lemma calculate_azimuthal_raw (mp : MagParameters) (p_start p_now : R) :
  alpha mp <> 0 -> 0 < p_start < PI -> 0 < p_now < PI ->
  calculate_azimuthal mp p_start p_now =
    Ok (float_mod (raw_azimuth (alpha mp) p_start p_now) (2 * PI)).
Proof.
  intros Ha Hs Hn. unfold calculate_azimuthal.
  pose proof (cos_half_pos _ Hs) as Hcs. pose proof (cos_half_pos _ Hn) as Hcn.
  pose proof (tan_half_pos _ Hs) as Hts. pose proof (tan_half_pos _ Hn) as Htn.
  rewrite div_ok by assumption. cbn [bind].
  rewrite (tan_ok (p_now / 2)) by lra.
  rewrite (tan_ok (p_start / 2)) by lra. cbn [bind].
  rewrite div_ok by lra. cbn [bind].
  rewrite log_ok by (apply Rdiv_lt_0_compat; assumption). cbn [bind].
  rewrite azi_into_range_ok. reflexivity.
Qed.

Lemma inv_sqrt2_lower : 7 / 10 <= 1 / sqrt 2.
Proof.
  assert (Hs : sqrt 2 <= 10 / 7).
  { rewrite <- (sqrt_pow2 (10 / 7)) by lra. apply sqrt_le_1_alt. lra. }
  assert (Hp : 0 < sqrt 2) by (apply sqrt_lt_R0; lra).
  apply Rmult_le_reg_r with (r := sqrt 2); [exact Hp|].
  replace (1 / sqrt 2 * sqrt 2) with 1 by (field; lra).
  nra.
Qed.

(** The tangent ratio of two half angles one step apart. *)
Lemma adjacent_float_ratio :
  0 < ln (tan ((1 + / 2 ^ 52) / 2) / tan (1 / 2)) <= / 2 ^ 51.
Proof.
  destruct PI_bounds as [Hp3 Hp4].
  set (d := / 2 ^ 53).
  assert (Hd : 0 < d < / 1000).
  { unfold d. split.
    - apply Rinv_0_lt_compat. apply pow_lt. lra.
    - apply Rinv_lt_contravar.
      + apply Rmult_lt_0_compat; [lra|apply pow_lt; lra].
      + replace 1000 with (1000 ^ 1) by lra.
        apply Rlt_trans with (2 ^ 10); [lra|].
        apply Rlt_pow; [lra|lia]. }
  assert (Ha : (1 + / 2 ^ 52) / 2 = 1 / 2 + d).
  { unfold d. replace (2 ^ 53) with (2 * 2 ^ 52) by (simpl; ring).
    field; apply pow_nonzero; lra. }
  assert (H51 : / 2 ^ 51 = 4 * d).
  { unfold d. replace (2 ^ 53) with (4 * 2 ^ 51) by (simpl; ring).
    field; apply pow_nonzero; lra. }
  rewrite Ha, H51. set (b := 1 / 2). set (a := b + d).
  assert (Hb : 0 < b < PI / 2) by (unfold b; lra).
  assert (Ha' : 0 < a < PI / 2) by (unfold a, b; lra).
  assert (Hcb : 0 < cos b) by (apply cos_gt_0; lra).
  assert (Hca : 0 < cos a) by (apply cos_gt_0; lra).
  assert (Hsb : 0 < sin b) by (apply sin_gt_0; lra).
  assert (Htb : 0 < tan b) by (apply tan_gt_0; lra).
  assert (Hinc : tan b < tan a) by (apply tan_increasing; [lra|unfold a; lra|lra]).
  assert (Hu : 1 < tan a / tan b).
  { apply Rmult_lt_reg_r with (r := tan b); [exact Htb|].
    replace (tan a / tan b * tan b) with (tan a) by (field; lra). lra. }
  assert (Hsd : 0 < sin d < d).
  { split; [apply sin_gt_0; lra|apply sin_lt_x; lra]. }
  assert (Hprod : sin (a + b) - sin (a - b) = 2 * (cos a * sin b))
    by (rewrite sin_plus, sin_minus; ring).
  assert (Hsum : 7 / 10 < sin (a + b)).
  { apply Rle_lt_trans with (sin (PI / 4)).
    - rewrite sin_PI4. exact inv_sqrt2_lower.
    - assert (a + b = 1 + d) as -> by (unfold a, b; field).
      apply sin_increasing_1; lra. }
  replace (a - b) with d in Hprod by (unfold a; ring).
  assert (Hcs : / 4 < cos a * sin b) by lra.
  assert (Hdiff : tan a / tan b - 1 = sin d / (cos a * sin b)).
  { replace d with (a - b) by (unfold a; ring).
    rewrite sin_minus. unfold tan. field. repeat split; lra. }
  assert (Hq : sin d / (cos a * sin b) < 4 * d).
  { apply Rmult_lt_reg_r with (r := cos a * sin b); [lra|].
    replace (sin d / (cos a * sin b) * (cos a * sin b)) with (sin d)
      by (field; lra).
    nra. }
  split.
  - rewrite <- ln_1. apply ln_increasing; lra.
  - pose proof (exp_ineq1_le (ln (tan a / tan b))) as He.
    rewrite exp_ln in He by lra. lra.
Qed.

(** C4.  The azimuth returned is not always below a full turn.  With
    [alpha = 1], [p_start = 1] and [p_now = 1 + 2^-52], the float next to
    1, the raw azimuth is negative and within half an ulp of zero: the
    float remainder is the modulus [2*pi] itself, the guard [a < 0] does
    not fire, and [2*pi] is returned. *)
Theorem calculate_azimuthal_returns_full_turn (h hk g : R) :
  calculate_azimuthal (mkMagParameters h hk 1 g) 1 (1 + / 2 ^ 52) = Ok (2 * PI) /\
  - / 2 ^ 51 <= raw_azimuth 1 1 (1 + / 2 ^ 52) < 0.
Proof.
  destruct PI_bounds as [Hp3 Hp4].
  pose proof adjacent_float_ratio as [Hpos Hle].
  assert (Hstep : 0 < / 2 ^ 52 < 1).
  { assert (H1 : 1 < 2 ^ 52) by (apply Rlt_pow_R1; [lra|lia]).
    split; [apply Rinv_0_lt_compat; lra|].
    rewrite <- Rinv_1. apply Rinv_lt_contravar; lra. }
  assert (Hraw : - / 2 ^ 51 <= raw_azimuth 1 1 (1 + / 2 ^ 52) < 0).
  { unfold raw_azimuth.
    replace (-1 / 1) with (-1) by field. split; lra. }
  split; [|exact Hraw].
  rewrite calculate_azimuthal_raw; cbn [alpha]; try lra.
  f_equal. apply float_mod_tiny_negative; lra.
Qed.

Lemma calculate_azimuthal_same_angle (mp : MagParameters) (p : R) :
  alpha mp <> 0 -> 0 < p < PI -> calculate_azimuthal mp p p = Ok 0.
Proof.
  intros Ha Hp. pose proof PI_RGT_0 as Hpi.
  pose proof (tan_half_pos _ Hp) as Ht.
  rewrite calculate_azimuthal_raw by assumption.
  f_equal. unfold raw_azimuth.
  replace (tan (p / 2) / tan (p / 2)) with 1 by (field; lra).
  rewrite ln_1, Rmult_0_r.
  pose proof half_ulp_small as [Hh0 Hh1]. destruct PI_bounds as [Hp3 Hp4].
  apply float_mod_exact; lra.
Qed.

(** C5.  On a parameter set of the data model whose applied field exceeds
    the anisotropy field, and for a polar angle [p] inside (0, pi), the
    switching time from [p] to [p] is exactly 0 and so is the azimuth. *)
Theorem same_angle_time_and_azimuth_zero (mp : MagParameters) (p : R) :
  wf_params mp -> H mp > Hk mp -> 0 < p < PI ->
  calculate_switching_time mp p p = Ok 0 /\
  calculate_azimuthal mp p p = Ok 0.
Proof.
  intros Hwf Hsup Hp.
  destruct (supercritical_prefactor mp Hwf Hsup) as [Hga Hden].
  pose proof (supercritical_field_term mp p Hwf Hsup) as Hb.
  split.
  - apply switching_time_same_angle; try assumption; lra.
  - destruct Hwf as (_ & _ & Ha & _).
    apply calculate_azimuthal_same_angle; [lra|assumption].
Qed.

Lemma default_params_wf : wf_params (mkMagParameters (11 / 10) 1 (1 / 100) 1).
Proof. unfold wf_params; cbn [H Hk alpha gamma]. repeat split; lra. Defined.

Lemma same_angle_time_and_azimuth_zero_witness :
  wf_params (mkMagParameters (11 / 10) 1 (1 / 100) 1) /\
  H (mkMagParameters (11 / 10) 1 (1 / 100) 1)
    > Hk (mkMagParameters (11 / 10) 1 (1 / 100) 1) /\
  0 < PI / 18 < PI /\
  calculate_switching_time (mkMagParameters (11 / 10) 1 (1 / 100) 1)
    (PI / 18) (PI / 18) = Ok 0 /\
  calculate_azimuthal (mkMagParameters (11 / 10) 1 (1 / 100) 1)
    (PI / 18) (PI / 18) = Ok 0.
Proof.
  pose proof PI_RGT_0 as Hpi.
  assert (Hsup : H (mkMagParameters (11 / 10) 1 (1 / 100) 1)
                   > Hk (mkMagParameters (11 / 10) 1 (1 / 100) 1))
    by (cbn [H Hk]; lra).
  assert (Hp : 0 < PI / 18 < PI) by (split; lra).
  split; [exact default_params_wf|]. split; [exact Hsup|]. split; [exact Hp|].
  exact (same_angle_time_and_azimuth_zero _ _ default_params_wf Hsup Hp).
Defined.

(** C9.  [calculate_azimuthal] reads the damping constant and nothing else
    of the parameter set: two parameter sets with the same [alpha] give the
    same outcome at every pair of angles, whatever their [H], [Hk] and
    [gamma]. *)
Theorem calculate_azimuthal_reads_alpha_only
    (mp1 mp2 : MagParameters) (p_start p_now : R) :
  alpha mp1 = alpha mp2 ->
  calculate_azimuthal mp1 p_start p_now = calculate_azimuthal mp2 p_start p_now.
Proof.
  intros Ha. unfold calculate_azimuthal. rewrite Ha. reflexivity.
Qed.

Lemma calculate_azimuthal_reads_alpha_only_witness :
  alpha (mkMagParameters (11 / 10) 1 (1 / 100) 1)
    = alpha (mkMagParameters 5 3 (1 / 100) (-2)) /\
  calculate_azimuthal (mkMagParameters (11 / 10) 1 (1 / 100) 1) (PI / 18) (PI / 2)
    = calculate_azimuthal (mkMagParameters 5 3 (1 / 100) (-2)) (PI / 18) (PI / 2).
Proof.
  split; [reflexivity|].
  apply (calculate_azimuthal_reads_alpha_only
           (mkMagParameters (11 / 10) 1 (1 / 100) 1)
           (mkMagParameters 5 3 (1 / 100) (-2))).
  reflexivity.
Defined.

(** ** Monotonicity of the switching time *)

Lemma ln_quot (x y : R) : 0 < x -> 0 < y -> ln (x / y) = ln x - ln y.
Proof.
  intros Hx Hy. unfold Rdiv.
  rewrite ln_mult by (try assumption; apply Rinv_0_lt_compat; assumption).
  rewrite ln_Rinv by assumption. ring.
Qed.

Lemma sin_double_half (p : R) : sin p = 2 * sin (p / 2) * cos (p / 2).
Proof. rewrite <- sin_2a. f_equal. field. Qed.

Lemma cos_double_half (p : R) :
  cos p = cos (p / 2) * cos (p / 2) - sin (p / 2) * sin (p / 2).
Proof. rewrite <- cos_2a. f_equal. field. Qed.

Lemma sin_cos_half_one (p : R) :
  sin (p / 2) * sin (p / 2) + cos (p / 2) * cos (p / 2) = 1.
Proof. pose proof (sin2_cos2 (p / 2)) as E. unfold Rsqr in E. exact E. Qed.

(** The field term [H - Hk*cos p] in the half angle. *)
Lemma field_term_half (mp : MagParameters) (p : R) :
  H mp - Hk mp * cos p =
    (H mp - Hk mp) * (cos (p / 2) * cos (p / 2))
    + (H mp + Hk mp) * (sin (p / 2) * sin (p / 2)).
Proof.
  rewrite cos_double_half. pose proof (sin_cos_half_one p) as E.
  replace (H mp) with (H mp * 1) at 1 by ring. rewrite <- E. ring.
Qed.

Lemma field_term_pos (mp : MagParameters) (p : R) :
  - H mp < Hk mp < H mp -> 0 < p < PI -> 0 < H mp - Hk mp * cos p.
Proof.
  intros [Hlo Hhi] Hp. rewrite field_term_half.
  pose proof (sin_half_pos p Hp) as Hs. pose proof (cos_half_pos p Hp) as Hc.
  assert (0 < cos (p / 2) * cos (p / 2)) by (apply Rmult_lt_0_compat; assumption).
  assert (0 < sin (p / 2) * sin (p / 2)) by (apply Rmult_lt_0_compat; assumption).
  assert (0 < (H mp - Hk mp) * (cos (p / 2) * cos (p / 2)))
    by (apply Rmult_lt_0_compat; lra).
  assert (0 < (H mp + Hk mp) * (sin (p / 2) * sin (p / 2)))
    by (apply Rmult_lt_0_compat; lra).
  lra.
Qed.

(** With every logarithm split, the closed form is the prefactor times
    [H*(ln t - ln t0) + Hk*(ln D0 - ln D) + Hk*(ln S - ln S0)]. *)
Lemma switching_time_formula_split (mp : MagParameters) (p_start p_now : R) :
  - H mp < Hk mp < H mp -> 0 < p_start < PI -> 0 < p_now < PI ->
  switching_time_formula mp p_start p_now =
    ((alpha mp ^ 2 + 1) / (gamma mp * alpha mp)) * (1 / (H mp ^ 2 - Hk mp ^ 2)) *
    (H mp * (ln (tan (p_now / 2)) - ln (tan (p_start / 2)))
     + Hk mp * (ln (H mp - Hk mp * cos p_start) - ln (H mp - Hk mp * cos p_now))
     + Hk mp * (ln (sin p_now) - ln (sin p_start))).
Proof.
  intros Hf Hs Hn. unfold switching_time_formula. cbv zeta.
  rewrite (ln_quot (tan (p_now / 2))) by (apply tan_half_pos; assumption).
  rewrite (ln_quot (H mp - Hk mp * cos p_start)) by (apply field_term_pos; assumption).
  rewrite (ln_quot (sin p_now)) by (apply sin_polar_pos; assumption).
  reflexivity.
Qed.

Section Monotone.

Variable mp : MagParameters.
Variables p1 p2 : R.
Hypothesis Hfield : - H mp < Hk mp < H mp.
Hypothesis Hp1 : 0 < p1.
Hypothesis Hp12 : p1 < p2.
Hypothesis Hp2 : p2 < PI.

Local Abbreviation s1 := (sin (p1 / 2)).
Local Abbreviation c1 := (cos (p1 / 2)).
Local Abbreviation s2 := (sin (p2 / 2)).
Local Abbreviation c2 := (cos (p2 / 2)).

Local Lemma polar1 : 0 < p1 < PI.
Proof. split; lra. Qed.

Local Lemma polar2 : 0 < p2 < PI.
Proof. split; lra. Qed.

Local Lemma half_sines : 0 < s1 /\ s1 < s2.
Proof.
  pose proof PI_RGT_0 as Hpi. split.
  - apply sin_half_pos, polar1.
  - apply sin_increasing_1; lra.
Qed.

Local Lemma half_cosines : 0 < c2 /\ c2 < c1.
Proof.
  pose proof PI_RGT_0 as Hpi. split.
  - apply cos_half_pos, polar2.
  - apply cos_decreasing_1; lra.
Qed.

(** [s2*c1 > s1*c2], squared. *)
Local Lemma cross_squares : s1 * s1 * (c2 * c2) < s2 * s2 * (c1 * c1).
Proof.
  destruct half_sines as [Hs1 Hs12]. destruct half_cosines as [Hc2 Hc21].
  assert (s1 * c2 < s2 * c1) by nra.
  assert (0 < s1 * c2) by (apply Rmult_lt_0_compat; assumption).
  replace (s1 * s1 * (c2 * c2)) with ((s1 * c2) * (s1 * c2)) by ring.
  replace (s2 * s2 * (c1 * c1)) with ((s2 * c1) * (s2 * c1)) by ring.
  nra.
Qed.

(** The sine and field terms together move by less than the tangent
    term, in either direction. *)
Lemma sine_field_lower :
  sin p1 * (H mp - Hk mp * cos p2) * tan (p1 / 2)
  < sin p2 * (H mp - Hk mp * cos p1) * tan (p2 / 2).
Proof.
  destruct half_sines as [Hs1 Hs12]. destruct half_cosines as [Hc2 Hc21].
  pose proof cross_squares as Hx.
  rewrite !field_term_half, (sin_double_half p1), (sin_double_half p2).
  unfold tan.
  replace (2 * s1 * c1 * ((H mp - Hk mp) * (c2 * c2) + (H mp + Hk mp) * (s2 * s2))
           * (s1 / c1))
    with (2 * ((H mp - Hk mp) * (s1 * s1 * (c2 * c2))
               + (H mp + Hk mp) * (s1 * s1 * (s2 * s2)))) by (field; lra).
  replace (2 * s2 * c2 * ((H mp - Hk mp) * (c1 * c1) + (H mp + Hk mp) * (s1 * s1))
           * (s2 / c2))
    with (2 * ((H mp - Hk mp) * (s2 * s2 * (c1 * c1))
               + (H mp + Hk mp) * (s1 * s1 * (s2 * s2)))) by (field; lra).
  assert ((H mp - Hk mp) * (s1 * s1 * (c2 * c2))
          < (H mp - Hk mp) * (s2 * s2 * (c1 * c1)))
    by (apply Rmult_lt_compat_l; lra).
  lra.
Qed.

Lemma sine_field_upper :
  sin p2 * (H mp - Hk mp * cos p1) * tan (p1 / 2)
  < sin p1 * (H mp - Hk mp * cos p2) * tan (p2 / 2).
Proof.
  destruct half_sines as [Hs1 Hs12]. destruct half_cosines as [Hc2 Hc21].
  pose proof cross_squares as Hx.
  rewrite !field_term_half, (sin_double_half p1), (sin_double_half p2).
  unfold tan.
  assert (Hs2 : 0 < s2) by lra. assert (Hc1 : 0 < c1) by lra.
  assert (Hss : 0 < s1 * s2) by (apply Rmult_lt_0_compat; assumption).
  assert (Hcc : 0 < c1 * c2) by (apply Rmult_lt_0_compat; assumption).
  replace (2 * s2 * c2 * ((H mp - Hk mp) * (c1 * c1) + (H mp + Hk mp) * (s1 * s1))
           * (s1 / c1))
    with (2 * (s1 * s2) / (c1 * c2) *
          ((H mp - Hk mp) * (c1 * c1 * (c2 * c2))
           + (H mp + Hk mp) * (s1 * s1 * (c2 * c2)))) by (field; lra).
  replace (2 * s1 * c1 * ((H mp - Hk mp) * (c2 * c2) + (H mp + Hk mp) * (s2 * s2))
           * (s2 / c2))
    with (2 * (s1 * s2) / (c1 * c2) *
          ((H mp - Hk mp) * (c1 * c1 * (c2 * c2))
           + (H mp + Hk mp) * (s2 * s2 * (c1 * c1)))) by (field; lra).
  apply Rmult_lt_compat_l.
  - apply Rdiv_lt_0_compat; lra.
  - assert ((H mp + Hk mp) * (s1 * s1 * (c2 * c2))
            < (H mp + Hk mp) * (s2 * s2 * (c1 * c1)))
      by (apply Rmult_lt_compat_l; lra).
    lra.
Qed.

End Monotone.

(** Between two polar angles [p1 < p2] the bracket [a + b + c] of the
    closed form grows, whenever [|Hk| < H]. *)
Lemma bracket_increases (mp : MagParameters) (p1 p2 : R) :
  - H mp < Hk mp < H mp -> 0 < p1 -> p1 < p2 -> p2 < PI ->
  0 < H mp * (ln (tan (p2 / 2)) - ln (tan (p1 / 2)))
      + Hk mp * ((ln (H mp - Hk mp * cos p1) - ln (H mp - Hk mp * cos p2))
                 + (ln (sin p2) - ln (sin p1))).
Proof.
  intros Hf H1 H12 H2.
  assert (Hq1 : 0 < p1 < PI) by (split; lra).
  assert (Hq2 : 0 < p2 < PI) by (split; lra).
  pose proof (tan_half_pos _ Hq1) as Ht1. pose proof (tan_half_pos _ Hq2) as Ht2.
  pose proof (sin_polar_pos _ Hq1) as Hs1. pose proof (sin_polar_pos _ Hq2) as Hs2.
  pose proof (field_term_pos mp p1 Hf Hq1) as Hd1.
  pose proof (field_term_pos mp p2 Hf Hq2) as Hd2.
  pose proof (sine_field_lower mp p1 p2 Hf H1 H12 H2) as Hlo.
  pose proof (sine_field_upper mp p1 p2 Hf H1 H12 H2) as Hhi.
  apply ln_increasing in Hlo;
    [|apply Rmult_lt_0_compat; [apply Rmult_lt_0_compat|]; assumption].
  apply ln_increasing in Hhi;
    [|apply Rmult_lt_0_compat; [apply Rmult_lt_0_compat|]; assumption].
  rewrite !ln_mult in Hlo, Hhi
    by (try assumption; apply Rmult_lt_0_compat; assumption).
  set (L := ln (tan (p2 / 2)) - ln (tan (p1 / 2))).
  set (X := (ln (H mp - Hk mp * cos p1) - ln (H mp - Hk mp * cos p2))
            + (ln (sin p2) - ln (sin p1))).
  assert (HXlo : - L < X) by (unfold L, X; lra).
  assert (HXhi : X < L) by (unfold L, X; lra).
  destruct Hf as [Hflo Hfhi].
  destruct (Rle_dec 0 (Hk mp)) as [Hpos|Hneg].
  - assert (Hk mp * (- L) <= Hk mp * X) by (apply Rmult_le_compat_l; lra).
    assert (0 < (H mp - Hk mp) * L) by (apply Rmult_lt_0_compat; lra).
    lra.
  - assert (- Hk mp * X <= - Hk mp * L) by (apply Rmult_le_compat_l; lra).
    assert (0 < (H mp + Hk mp) * L) by (apply Rmult_lt_0_compat; lra).
    lra.
Qed.

(** On a parameter set with [|Hk| < H] and positive damping and
    gyromagnetic ratio the switching time is defined on all of (0, pi) and
    strictly increasing in [p_now]. *)
Lemma switching_time_supercritical (mp : MagParameters) (p_start p_now : R) :
  - H mp < Hk mp < H mp -> gamma mp * alpha mp <> 0 ->
  0 < p_start < PI -> 0 < p_now < PI ->
  calculate_switching_time mp p_start p_now =
    Ok (switching_time_formula mp p_start p_now).
Proof.
  intros Hf Hga Hs Hn. apply switching_time_defined; try assumption.
  pose proof (field_term_pos mp p_start Hf Hs) as Hd0.
  pose proof (field_term_pos mp p_now Hf Hn) as Hd.
  repeat split.
  - assumption.
  - destruct Hf as [Hlo Hhi]. nra.
  - lra.
  - apply Rdiv_lt_0_compat; assumption.
Qed.

Lemma switching_time_formula_increasing (mp : MagParameters) (p_start p1 p2 : R) :
  - H mp < Hk mp < H mp -> 0 < alpha mp -> 0 < gamma mp ->
  0 < p_start < PI -> 0 < p1 -> p1 < p2 -> p2 < PI ->
  switching_time_formula mp p_start p1 < switching_time_formula mp p_start p2.
Proof.
  intros Hf Ha Hg Hs H1 H12 H2.
  rewrite !switching_time_formula_split by (try assumption; split; lra).
  pose proof (bracket_increases mp p1 p2 Hf H1 H12 H2) as Hb.
  assert (Hpre : 0 < (alpha mp ^ 2 + 1) / (gamma mp * alpha mp)
                     * (1 / (H mp ^ 2 - Hk mp ^ 2))).
  { destruct Hf as [Hlo Hhi].
    apply Rmult_lt_0_compat; apply Rdiv_lt_0_compat; nra. }
  apply Rmult_lt_compat_l; [exact Hpre|]. lra.
Qed.

(** C3, as amended.  For every parameter set with [H > Hk >= 0],
    [alpha > 0] and [gamma > 0], a start angle inside (0, pi/2) and polar
    angles [p_start <= p1 < p2 < pi/2], both switching times are returned
    and the one at [p1] is strictly smaller than the one at [p2]. *)
Theorem switching_time_strictly_increasing
    (mp : MagParameters) (p_start p1 p2 : R) :
  0 <= Hk mp < H mp -> 0 < alpha mp -> 0 < gamma mp ->
  0 < p_start < PI / 2 -> p_start <= p1 -> p1 < p2 -> p2 < PI / 2 ->
  exists t1 t2,
    calculate_switching_time mp p_start p1 = Ok t1 /\
    calculate_switching_time mp p_start p2 = Ok t2 /\
    t1 < t2.
Proof.
  intros [Hk0 HkH] Ha Hg [Hs0 Hs2] Hs1 H12 H2.
  pose proof PI_RGT_0 as Hpi.
  assert (Hf : - H mp < Hk mp < H mp) by (split; lra).
  assert (Hga : gamma mp * alpha mp <> 0)
    by (apply Rmult_integral_contrapositive_currified; lra).
  exists (switching_time_formula mp p_start p1),
         (switching_time_formula mp p_start p2).
  split; [|split].
  - apply switching_time_supercritical; try assumption; split; lra.
  - apply switching_time_supercritical; try assumption; split; lra.
  - apply switching_time_formula_increasing; try assumption; try lra.
Qed.

Lemma switching_time_strictly_increasing_witness :
  0 <= Hk (mkMagParameters (11 / 10) 1 (1 / 100) 1)
    < H (mkMagParameters (11 / 10) 1 (1 / 100) 1) /\
  0 < alpha (mkMagParameters (11 / 10) 1 (1 / 100) 1) /\
  0 < gamma (mkMagParameters (11 / 10) 1 (1 / 100) 1) /\
  0 < PI / 18 < PI / 2 /\ PI / 18 <= PI / 6 /\ PI / 6 < PI / 3 /\ PI / 3 < PI / 2 /\
  exists t1 t2,
    calculate_switching_time (mkMagParameters (11 / 10) 1 (1 / 100) 1)
      (PI / 18) (PI / 6) = Ok t1 /\
    calculate_switching_time (mkMagParameters (11 / 10) 1 (1 / 100) 1)
      (PI / 18) (PI / 3) = Ok t2 /\
    t1 < t2.
Proof.
  pose proof PI_RGT_0 as Hpi.
  assert (Hf : 0 <= Hk (mkMagParameters (11 / 10) 1 (1 / 100) 1)
                 < H (mkMagParameters (11 / 10) 1 (1 / 100) 1))
    by (cbn [H Hk]; split; lra).
  assert (Ha : 0 < alpha (mkMagParameters (11 / 10) 1 (1 / 100) 1))
    by (cbn [alpha]; lra).
  assert (Hg : 0 < gamma (mkMagParameters (11 / 10) 1 (1 / 100) 1))
    by (cbn [gamma]; lra).
  assert (Hs : 0 < PI / 18 < PI / 2) by (split; lra).
  assert (H1 : PI / 18 <= PI / 6) by lra.
  assert (H12 : PI / 6 < PI / 3) by lra.
  assert (H2 : PI / 3 < PI / 2) by lra.
  repeat (split; [assumption|]).
  exact (switching_time_strictly_increasing _ _ _ _ Hf Ha Hg Hs H1 H12 H2).
Defined.

(** C3, the claim as stated fails for a negative gyromagnetic ratio: with
    [H = 1], [Hk = 0], [alpha = 1], [gamma = -1] and start angle pi/4, the
    time at pi/3 is smaller than the time at pi/4. *)
Lemma negative_gamma_time_decreases :
  H (mkMagParameters 1 0 1 (-1)) > Hk (mkMagParameters 1 0 1 (-1)) /\
  alpha (mkMagParameters 1 0 1 (-1)) > 0 /\
  gamma (mkMagParameters 1 0 1 (-1)) <> 0 /\
  0 < PI / 4 < PI / 2 /\ PI / 4 <= PI / 4 /\ PI / 4 < PI / 3 /\ PI / 3 < PI / 2 /\
  exists t1 t2,
    calculate_switching_time (mkMagParameters 1 0 1 (-1)) (PI / 4) (PI / 4) = Ok t1 /\
    calculate_switching_time (mkMagParameters 1 0 1 (-1)) (PI / 4) (PI / 3) = Ok t2 /\
    ~ t1 < t2.
Proof.
  pose proof PI_RGT_0 as Hpi.
  cbn [H Hk alpha gamma].
  repeat (split; [lra|]).
  assert (Hs : 0 < PI / 4 < PI) by (split; lra).
  assert (Hn : 0 < PI / 3 < PI) by (split; lra).
  assert (Hf : - H (mkMagParameters 1 0 1 (-1)) < Hk (mkMagParameters 1 0 1 (-1))
               < H (mkMagParameters 1 0 1 (-1))) by (cbn [H Hk]; split; lra).
  exists 0, (switching_time_formula (mkMagParameters 1 0 1 (-1)) (PI / 4) (PI / 3)).
  split; [|split].
  - apply switching_time_same_angle; cbn [H Hk alpha gamma]; try assumption; lra.
  - apply switching_time_supercritical; try assumption. cbn [alpha gamma]. lra.
  - rewrite switching_time_formula_split by assumption. cbn [H Hk alpha gamma].
    assert (Hl : ln (tan (PI / 4 / 2)) < ln (tan (PI / 3 / 2))).
    { apply ln_increasing.
      - apply tan_half_pos. assumption.
      - apply tan_increasing; lra. }
    replace ((1 ^ 2 + 1) / (-1 * 1) * (1 / (1 ^ 2 - 0 ^ 2))) with (-2) by (field; lra).
    lra.
Qed.

(** ** List comprehensions *)

Lemma Ok_inj {A : Type} (a b : A) : Ok a = Ok b -> a = b.
Proof. intros E. congruence. Qed.

Lemma mapM_length {A B : Type} (f : A -> result B) (l : list A) (ys : list B) :
  mapM f l = Ok ys -> length ys = length l.
Proof.
  revert ys. induction l as [|x l IH]; intros ys Hm; cbn in Hm.
  - injection Hm as <-. reflexivity.
  - destruct (f x) as [y|e]; cbn in Hm; [|discriminate Hm].
    destruct (mapM f l) as [ys'|e]; cbn in Hm; [|discriminate Hm].
    injection Hm as <-. cbn. f_equal. apply IH. reflexivity.
Qed.

Lemma mapM_total {A B : Type} (f : A -> result B) (l : list A) :
  Forall (fun x => exists y, f x = Ok y) l -> exists ys, mapM f l = Ok ys.
Proof.
  induction 1 as [|x l [y Hy] _ [ys Hys]]; cbn.
  - exists []. reflexivity.
  - rewrite Hy, Hys. cbn. exists (y :: ys). reflexivity.
Qed.

Lemma mapM_Forall {A B : Type} (f : A -> result B) (P : B -> Prop)
    (l : list A) (ys : list B) :
  (forall x y, f x = Ok y -> P y) -> mapM f l = Ok ys -> Forall P ys.
Proof.
  intros HP. revert ys. induction l as [|x l IH]; intros ys Hm; cbn in Hm.
  - injection Hm as <-. constructor.
  - destruct (f x) as [y|e] eqn:Hy; cbn in Hm; [|discriminate Hm].
    destruct (mapM f l) as [ys'|e]; cbn in Hm; [|discriminate Hm].
    injection Hm as <-. constructor.
    + apply (HP x). exact Hy.
    + apply IH. reflexivity.
Qed.

(** Unzipping the points built from [zip(azis, pols)]. *)
Lemma sph_points_azi (azis pols : list R) :
  length azis = length pols ->
  map azi (map (fun '(azi, pol) => mkSphPoint 1 azi pol) (combine azis pols)) = azis.
Proof.
  revert pols. induction azis as [|a azis IH]; intros [|p pols] Hlen;
    cbn in *; try reflexivity; try discriminate Hlen.
  f_equal. apply IH. lia.
Qed.

Lemma sph_points_pol (azis pols : list R) :
  length azis = length pols ->
  map pol (map (fun '(azi, pol) => mkSphPoint 1 azi pol) (combine azis pols)) = pols.
Proof.
  revert pols. induction azis as [|a azis IH]; intros [|p pols] Hlen;
    cbn in *; try reflexivity; try discriminate Hlen.
  f_equal. apply IH. lia.
Qed.

(** ** Sampling *)

Lemma linspace_negative (start stop : R) (num : Z) :
  (num < 0)%Z -> linspace start stop num = Err ValueError.
Proof.
  intros Hn. unfold linspace.
  destruct (Z.ltb_spec num 0) as [_|Hge]; [reflexivity|lia].
Qed.

Lemma linspace_zero (start stop : R) : linspace start stop 0 = Ok [].
Proof. reflexivity. Qed.

Lemma linspace_length (start stop : R) (num : Z) :
  (0 <= num)%Z ->
  exists pols, linspace start stop num = Ok pols /\ length pols = Z.to_nat num.
Proof.
  intros Hn. unfold linspace.
  destruct (Z.ltb_spec num 0) as [Hlt|_]; [lia|].
  destruct (Z.to_nat num) as [|[|k]].
  - exists []. split; reflexivity.
  - exists [start]. split; reflexivity.
  - eexists. split; [reflexivity|].
    rewrite length_app, length_map, length_seq. cbn. lia.
Qed.

Lemma linspace_first (start stop : R) (num : Z) (pols : list R) :
  (1 <= num)%Z -> linspace start stop num = Ok pols ->
  exists rest, pols = start :: rest.
Proof.
  intros Hn. unfold linspace.
  destruct (Z.ltb_spec num 0) as [Hlt|_]; [lia|].
  destruct (Z.to_nat num) as [|[|k]] eqn:Hk; intros Hl.
  - lia.
  - injection Hl as <-. exists []. reflexivity.
  - injection Hl as <-. cbn [seq map app].
    eexists. f_equal. cbn [INR]. ring.
Qed.

(** Every sample is a point of the segment from [start] to [stop]. *)
Lemma linspace_segment (start stop : R) (num : Z) (pols : list R) :
  linspace start stop num = Ok pols ->
  Forall (fun p => exists t, 0 <= t <= 1 /\ p = start + t * (stop - start)) pols.
Proof.
  unfold linspace.
  destruct (Z.ltb_spec num 0) as [Hlt|_]; [discriminate|].
  destruct (Z.to_nat num) as [|[|k]]; intros Hl; apply Ok_inj in Hl; subst pols.
  - constructor.
  - constructor; [|constructor]. exists 0. split; [lra|ring].
  - set (n := S k).
    assert (Hn : 0 < INR n) by (apply lt_0_INR; unfold n; lia).
    apply Forall_app. split.
    + apply Forall_forall. intros p Hp.
      apply in_map_iff in Hp. destruct Hp as (i & <- & Hi).
      apply in_seq in Hi. destruct Hi as [_ Hi]. cbn in Hi.
      exists (INR i / INR n). split.
      * assert (Hle : INR i <= INR n) by (apply le_INR; lia).
        pose proof (pos_INR i) as Hi0.
        split.
        -- apply Rmult_le_reg_r with (r := INR n); [exact Hn|].
           replace (INR i / INR n * INR n) with (INR i) by (field; lra). lra.
        -- apply Rmult_le_reg_r with (r := INR n); [exact Hn|].
           replace (INR i / INR n * INR n) with (INR i) by (field; lra). lra.
      * field. lra.
    + constructor; [|constructor]. exists 1. split; [lra|ring].
Qed.

Lemma segment_polar (start stop t : R) :
  0 < start < PI -> 0 < stop < PI -> 0 <= t <= 1 ->
  0 < start + t * (stop - start) < PI.
Proof.
  intros [Hs0 Hs1] [He0 He1] [Ht0 Ht1].
  destruct (Rle_dec start stop) as [Hle|Hgt].
  - assert (0 <= t * (stop - start)) by (apply Rmult_le_pos; lra).
    assert (t * (stop - start) <= 1 * (stop - start))
      by (apply Rmult_le_compat_r; lra).
    split; lra.
  - assert (0 <= t * (start - stop)) by (apply Rmult_le_pos; lra).
    assert (t * (start - stop) <= 1 * (start - stop))
      by (apply Rmult_le_compat_r; lra).
    split; lra.
Qed.

Lemma linspace_polar (start stop : R) (num : Z) (pols : list R) :
  0 < start < PI -> 0 < stop < PI ->
  linspace start stop num = Ok pols ->
  Forall (fun p => 0 < p < PI) pols.
Proof.
  intros Hs He Hl. apply linspace_segment in Hl.
  eapply Forall_impl; [|exact Hl].
  intros p (t & Ht & ->). apply segment_polar; assumption.
Qed.

(** ** Trajectories *)

(** Whatever the arguments, an azimuth that is returned lies in
    [[0, 2pi]], the full turn included. *)
Lemma calculate_azimuthal_range (mp : MagParameters) (p_start p_now A : R) :
  calculate_azimuthal mp p_start p_now = Ok A -> 0 <= A <= 2 * PI.
Proof.
  unfold calculate_azimuthal.
  destruct (Py.div (-1) (alpha mp)) as [q|e]; cbn [bind]; [|discriminate].
  destruct (Py.tan (p_now / 2)) as [tn|e]; cbn [bind]; [|discriminate].
  destruct (Py.tan (p_start / 2)) as [ts|e]; cbn [bind]; [|discriminate].
  destruct (Py.div tn ts) as [ra|e]; cbn [bind]; [|discriminate].
  destruct (Py.log ra) as [la|e]; cbn [bind]; [|discriminate].
  rewrite azi_into_range_ok. intros E. apply Ok_inj in E. subst A.
  apply float_mod_range.
Qed.

Lemma generate_dynamics_inv (mp : MagParameters) (start_angle end_angle : R)
    (steps : Z) (sphs : list SphPoint) (times : list R) :
  generate_dynamics mp start_angle end_angle steps = Ok (sphs, times) ->
  exists pols azis,
    linspace start_angle end_angle steps = Ok pols /\
    mapM (calculate_azimuthal mp start_angle) pols = Ok azis /\
    mapM (calculate_switching_time mp start_angle) pols = Ok times /\
    sphs = map (fun '(azi, pol) => mkSphPoint 1 azi pol) (combine azis pols).
Proof.
  unfold generate_dynamics.
  destruct (linspace start_angle end_angle steps) as [pols|e]; cbn [bind];
    [|discriminate].
  destruct (mapM (fun p => calculate_azimuthal mp start_angle p) pols)
    as [azis|e] eqn:Hazis; cbn [bind]; [|discriminate].
  destruct (mapM (fun p => calculate_switching_time mp start_angle p) pols)
    as [ts|e] eqn:Htimes; cbn [bind]; [|discriminate].
  intros E. apply Ok_inj in E. injection E as <- <-.
  exists pols, azis. repeat split; assumption.
Qed.

(** A parameter set of the data model with [H > Hk] is inside the domain
    of both calculators, at all polar angles inside (0, pi). *)
Lemma calculators_total (mp : MagParameters) (p_start p_now : R) :
  wf_params mp -> H mp > Hk mp -> 0 < p_start < PI -> 0 < p_now < PI ->
  (exists t, calculate_switching_time mp p_start p_now = Ok t) /\
  (exists A, calculate_azimuthal mp p_start p_now = Ok A).
Proof.
  intros Hwf Hsup Hs Hn.
  destruct (supercritical_prefactor mp Hwf Hsup) as [Hga _].
  destruct Hwf as (HH & HHk & Ha & Hg).
  split.
  - eexists. apply switching_time_supercritical; try assumption. split; lra.
  - eexists. apply calculate_azimuthal_raw; try assumption. lra.
Qed.

Lemma generate_dynamics_total (mp : MagParameters) (start_angle end_angle : R)
    (steps : Z) :
  wf_params mp -> H mp > Hk mp ->
  0 < start_angle < PI -> 0 < end_angle < PI -> (0 <= steps)%Z ->
  exists sphs times,
    generate_dynamics mp start_angle end_angle steps = Ok (sphs, times).
Proof.
  intros Hwf Hsup Hs He Hn.
  destruct (linspace_length start_angle end_angle steps Hn) as (pols & Hl & _).
  pose proof (linspace_polar _ _ _ _ Hs He Hl) as Hpol.
  destruct (mapM_total (calculate_azimuthal mp start_angle) pols) as [azis Hazis].
  { eapply Forall_impl; [|exact Hpol]. intros p Hp.
    apply (calculators_total mp start_angle p); assumption. }
  destruct (mapM_total (calculate_switching_time mp start_angle) pols) as [ts Hts].
  { eapply Forall_impl; [|exact Hpol]. intros p Hp.
    apply (calculators_total mp start_angle p); assumption. }
  unfold generate_dynamics. rewrite Hl. cbn [bind].
  change (fun p => calculate_azimuthal mp start_angle p)
    with (calculate_azimuthal mp start_angle).
  change (fun p => calculate_switching_time mp start_angle p)
    with (calculate_switching_time mp start_angle).
  rewrite Hazis. cbn [bind]. rewrite Hts. cbn [bind].
  eexists. eexists. reflexivity.
Qed.

Lemma equivalent_dynamics_total (mp : MagParameters) (polars : list R) :
  wf_params mp -> H mp > Hk mp ->
  polars <> [] -> Forall (fun p => 0 < p < PI) polars ->
  exists exact_times exact_azis,
    calculate_equivalent_dynamics mp polars = Ok (exact_times, exact_azis).
Proof.
  intros Hwf Hsup Hne Hpol.
  destruct polars as [|p0 rest]; [contradiction|].
  assert (Hp0 : 0 < p0 < PI) by (inversion Hpol; assumption).
  destruct (mapM_total (calculate_switching_time mp p0) (p0 :: rest)) as [ts Hts].
  { eapply Forall_impl; [|exact Hpol]. intros p Hp.
    apply (calculators_total mp p0 p); assumption. }
  destruct (mapM_total (calculate_azimuthal mp p0) (p0 :: rest)) as [azs Hazs].
  { eapply Forall_impl; [|exact Hpol]. intros p Hp.
    apply (calculators_total mp p0 p); assumption. }
  unfold calculate_equivalent_dynamics. rewrite Hts. cbn [bind].
  rewrite Hazs. cbn [bind]. eexists. eexists. reflexivity.
Qed.

Lemma default_field_supercritical :
  H (mkMagParameters (11 / 10) 1 (1 / 100) 1)
    > Hk (mkMagParameters (11 / 10) 1 (1 / 100) 1).
Proof. cbn [H Hk]. lra. Defined.

Lemma default_angles : 0 < PI / 18 < PI /\ 0 < 17 * PI / 18 < PI.
Proof. pose proof PI_RGT_0. repeat split; lra. Defined.

(** C6.  Round trip: when [generate_dynamics] with at least one step
    returns [(sphs, times)], feeding the polar angles of [sphs] to
    [calculate_equivalent_dynamics] returns exactly [times] and exactly the
    azimuths of [sphs]. *)
Theorem generate_then_equivalent_round_trip
    (mp : MagParameters) (start_angle end_angle : R) (steps : Z)
    (sphs : list SphPoint) (times : list R) :
  (1 <= steps)%Z ->
  generate_dynamics mp start_angle end_angle steps = Ok (sphs, times) ->
  calculate_equivalent_dynamics mp (map pol sphs) = Ok (times, map azi sphs).
Proof.
  intros Hn Hgd.
  destruct (generate_dynamics_inv _ _ _ _ _ _ Hgd)
    as (pols & azis & Hl & Hazis & Hts & ->).
  pose proof (mapM_length _ _ _ Hazis) as Hlen.
  rewrite sph_points_pol, sph_points_azi by exact Hlen.
  destruct (linspace_first _ _ _ _ Hn Hl) as [rest ->].
  unfold calculate_equivalent_dynamics.
  rewrite Hts. cbn [bind]. rewrite Hazis. reflexivity.
Qed.

Lemma generate_then_equivalent_round_trip_witness :
  (1 <= 1000)%Z /\
  exists sphs times,
    generate_dynamics (mkMagParameters (11 / 10) 1 (1 / 100) 1)
      (PI / 18) (17 * PI / 18) 1000 = Ok (sphs, times) /\
    calculate_equivalent_dynamics (mkMagParameters (11 / 10) 1 (1 / 100) 1)
      (map pol sphs) = Ok (times, map azi sphs).
Proof.
  assert (Hn : (1 <= 1000)%Z) by lia.
  split; [exact Hn|].
  destruct default_angles as [Hs He].
  destruct (generate_dynamics_total (mkMagParameters (11 / 10) 1 (1 / 100) 1)
              (PI / 18) (17 * PI / 18) 1000
              default_params_wf default_field_supercritical Hs He)
    as (sphs & times & Hgd); [lia|].
  exists sphs, times. split; [exact Hgd|].
  exact (generate_then_equivalent_round_trip _ _ _ _ _ _ Hn Hgd).
Defined.

(** C7, as amended.  [generate_dynamics] makes no check of [steps] of its
    own.  With [steps = 0] it returns the empty trajectory, two empty
    sequences; with a negative [steps] the sampling routine rejects the
    count and its [ValueError] is what the caller gets, before any formula
    is evaluated. *)
Theorem generate_dynamics_non_positive_steps
    (mp : MagParameters) (start_angle end_angle : R) (steps : Z) :
  (steps <= 0)%Z ->
  generate_dynamics mp start_angle end_angle steps =
    if (steps <? 0)%Z then Err ValueError else Ok ([], []).
Proof.
  intros Hn. unfold generate_dynamics.
  destruct (Z.ltb_spec steps 0) as [Hlt|Hge].
  - rewrite linspace_negative by exact Hlt. reflexivity.
  - assert (steps = 0%Z) as -> by lia. rewrite linspace_zero. reflexivity.
Qed.

Lemma generate_dynamics_non_positive_steps_witness :
  (-1 <= 0)%Z /\
  generate_dynamics (mkMagParameters (11 / 10) 1 (1 / 100) 1)
    (PI / 18) (17 * PI / 18) (-1) = Err ValueError.
Proof.
  split; [lia|].
  apply (generate_dynamics_non_positive_steps
           (mkMagParameters (11 / 10) 1 (1 / 100) 1) (PI / 18) (17 * PI / 18) (-1)).
  lia.
Defined.

(** C7, the claim as stated fails: a request for zero steps raises
    nothing and returns the empty trajectory. *)
Lemma zero_steps_returns_empty_trajectory :
  generate_dynamics (mkMagParameters (11 / 10) 1 (1 / 100) 1)
    (PI / 18) (17 * PI / 18) 0 = Ok ([], []) /\
  ~ (exists e,
       generate_dynamics (mkMagParameters (11 / 10) 1 (1 / 100) 1)
         (PI / 18) (17 * PI / 18) 0 = Err e).
Proof.
  assert (E : generate_dynamics (mkMagParameters (11 / 10) 1 (1 / 100) 1)
                (PI / 18) (17 * PI / 18) 0 = Ok ([], [])) by reflexivity.
  split; [exact E|].
  intros [e He]. rewrite E in He. discriminate He.
Qed.

Lemma generated_azimuths_in_range
    (mp : MagParameters) (start_angle end_angle : R) (steps : Z)
    (sphs : list SphPoint) (times : list R) :
  generate_dynamics mp start_angle end_angle steps = Ok (sphs, times) ->
  Forall (fun sph => 0 <= azi sph <= 2 * PI) sphs.
Proof.
  intros Hgd.
  destruct (generate_dynamics_inv _ _ _ _ _ _ Hgd)
    as (pols & azis & Hl & Hazis & Hts & ->).
  pose proof (mapM_length _ _ _ Hazis) as Hlen.
  assert (Hr : Forall (fun A => 0 <= A <= 2 * PI) azis).
  { eapply mapM_Forall; [|exact Hazis].
    intros p A HA. exact (calculate_azimuthal_range _ _ _ _ HA). }
  rewrite <- (sph_points_azi azis pols Hlen) in Hr.
  rewrite Forall_map in Hr. exact Hr.
Qed.


Lemma generate_dynamics_lengths
    (mp : MagParameters) (start_angle end_angle : R) (steps : Z)
    (sphs : list SphPoint) (times : list R) :
  (0 <= steps)%Z ->
  generate_dynamics mp start_angle end_angle steps = Ok (sphs, times) ->
  length sphs = Z.to_nat steps /\ length times = Z.to_nat steps.
Proof.
  intros Hn Hgd.
  destruct (generate_dynamics_inv _ _ _ _ _ _ Hgd)
    as (pols & azis & Hl & Hazis & Hts & ->).
  destruct (linspace_length start_angle end_angle steps Hn) as (pols' & Hl' & Hlen).
  rewrite Hl in Hl'. apply Ok_inj in Hl'. subst pols'.
  pose proof (mapM_length _ _ _ Hazis) as Hla.
  pose proof (mapM_length _ _ _ Hts) as Hlt.
  split.
  - rewrite length_map, length_combine, Hla, Hlen. lia.
  - lia.
Qed.

Lemma equivalent_dynamics_lengths
    (mp : MagParameters) (polars exact_times exact_azis : list R) :
  calculate_equivalent_dynamics mp polars = Ok (exact_times, exact_azis) ->
  length exact_times = length polars /\ length exact_azis = length polars.
Proof.
  unfold calculate_equivalent_dynamics.
  destruct polars as [|p0 rest]; [discriminate|].
  destruct (mapM (calculate_switching_time mp p0) (p0 :: rest)) as [ts|e] eqn:Hts;
    cbn [bind]; [|discriminate].
  destruct (mapM (calculate_azimuthal mp p0) (p0 :: rest)) as [azs|e] eqn:Hazs;
    cbn [bind]; [|discriminate].
  intros E. apply Ok_inj in E. injection E as <- <-.
  split; eapply mapM_length; eassumption.
Qed.

(** C10.  Index alignment.  For [steps >= 1], the two sequences returned by
    [generate_dynamics] both have length [steps], and for a non-empty list
    [polars] the two sequences returned by [calculate_equivalent_dynamics]
    both have the length of [polars].  Both functions do return on a
    parameter set of the data model with [H > Hk] and polar angles inside
    (0, pi). *)
Theorem outputs_index_aligned
    (mp : MagParameters) (start_angle end_angle : R) (steps : Z)
    (polars : list R) :
  (1 <= steps)%Z -> polars <> [] ->
  (forall sphs times,
     generate_dynamics mp start_angle end_angle steps = Ok (sphs, times) ->
     length sphs = Z.to_nat steps /\ length times = Z.to_nat steps) /\
  (forall exact_times exact_azis,
     calculate_equivalent_dynamics mp polars = Ok (exact_times, exact_azis) ->
     length exact_times = length polars /\ length exact_azis = length polars) /\
  (wf_params mp -> H mp > Hk mp ->
   0 < start_angle < PI -> 0 < end_angle < PI ->
   exists sphs times,
     generate_dynamics mp start_angle end_angle steps = Ok (sphs, times)) /\
  (wf_params mp -> H mp > Hk mp -> Forall (fun p => 0 < p < PI) polars ->
   exists exact_times exact_azis,
     calculate_equivalent_dynamics mp polars = Ok (exact_times, exact_azis)).
Proof.
  intros Hn Hne. split; [|split; [|split]].
  - intros sphs times Hgd. eapply generate_dynamics_lengths; [lia|exact Hgd].
  - intros ts azs Hced. eapply equivalent_dynamics_lengths; exact Hced.
  - intros Hwf Hsup Hs He. apply generate_dynamics_total; try assumption. lia.
  - intros Hwf Hsup Hpol. apply equivalent_dynamics_total; assumption.
Qed.

Lemma outputs_index_aligned_witness :
  (1 <= 1000)%Z /\ [PI / 18; PI / 2] <> [] /\
  (exists sphs times,
     generate_dynamics (mkMagParameters (11 / 10) 1 (1 / 100) 1)
       (PI / 18) (17 * PI / 18) 1000 = Ok (sphs, times) /\
     length sphs = Z.to_nat 1000 /\ length times = Z.to_nat 1000) /\
  (exists exact_times exact_azis,
     calculate_equivalent_dynamics (mkMagParameters (11 / 10) 1 (1 / 100) 1)
       [PI / 18; PI / 2] = Ok (exact_times, exact_azis) /\
     length exact_times = 2%nat /\ length exact_azis = 2%nat).
Proof.
  assert (Hn : (1 <= 1000)%Z) by lia.
  assert (Hne : [PI / 18; PI / 2] <> []) by discriminate.
  destruct default_angles as [Hs He].
  destruct (outputs_index_aligned (mkMagParameters (11 / 10) 1 (1 / 100) 1)
              (PI / 18) (17 * PI / 18) 1000 [PI / 18; PI / 2] Hn Hne)
    as (Hgl & Hcl & Hgt & Hct).
  split; [exact Hn|]. split; [exact Hne|]. split.
  - destruct (Hgt default_params_wf default_field_supercritical Hs He)
      as (sphs & times & Hgd).
    exists sphs, times. split; [exact Hgd|]. exact (Hgl _ _ Hgd).
  - destruct Hct as (ts & azs & Hced).
    + exact default_params_wf.
    + exact default_field_supercritical.
    + repeat constructor; try exact (proj1 Hs); try exact (proj2 Hs);
        try exact (proj1 PI2_polar); exact (proj2 PI2_polar).
    + exists ts, azs. split; [exact Hced|]. exact (Hcl _ _ Hced).
Defined.

(** ** The azimuth along increasing polar angles

    Why the test speaks of a wrap: for a positive damping the raw azimuth
    strictly decreases as the polar angle grows, so two azimuths in this
    order either decrease or belong to different turns. *)

Lemma raw_azimuth_decreasing (a p_start p1 p2 : R) :
  0 < a -> 0 < p_start < PI -> 0 < p1 -> p1 < p2 -> p2 < PI ->
  raw_azimuth a p_start p2 < raw_azimuth a p_start p1.
Proof.
  intros Ha Hs H1 H12 H2. pose proof PI_RGT_0 as Hpi.
  assert (Hq1 : 0 < p1 < PI) by (split; lra).
  assert (Hq2 : 0 < p2 < PI) by (split; lra).
  pose proof (tan_half_pos _ Hs) as Ht0.
  pose proof (tan_half_pos _ Hq1) as Ht1.
  pose proof (tan_half_pos _ Hq2) as Ht2.
  unfold raw_azimuth. rewrite !ln_quot by assumption.
  assert (Hl : ln (tan (p1 / 2)) < ln (tan (p2 / 2))).
  { apply ln_increasing; [assumption|]. apply tan_increasing; lra. }
  assert (Hq : -1 / a < 0).
  { unfold Rdiv. apply Rmult_lt_reg_r with (r := a); [exact Ha|].
    rewrite Rmult_assoc, Rinv_l by lra. lra. }
  apply Rmult_lt_gt_compat_neg_l; lra.
Qed.

(** Within one turn the float remainder keeps the order of its arguments,
    except that two remainders absorbed into the modulus are equal. *)
Lemma float_mod_same_turn_order (r1 r2 : R) :
  r2 < r1 -> Zfloor (r2 / (2 * PI)) = Zfloor (r1 / (2 * PI)) ->
  float_mod r2 (2 * PI) < float_mod r1 (2 * PI) \/
  (float_mod r1 (2 * PI) = 2 * PI /\ float_mod r2 (2 * PI) = 2 * PI).
Proof.
  intros Hlt Hturn. destruct PI_bounds as [Hp3 Hp4].
  assert (Hrm : real_mod r2 (2 * PI) < real_mod r1 (2 * PI))
    by (unfold real_mod; rewrite Hturn; lra).
  pose proof (real_mod_bound r2 (2 * PI)) as Hb2.
  assert (H2pi : 0 < 2 * PI) by lra. apply Hb2 in H2pi.
  destruct (float_mod_turn r1) as [[Hg1 E1]|[Hg1 E1]];
    destruct (float_mod_turn r2) as [[Hg2 E2]|[Hg2 E2]]; rewrite E1, E2.
  - right. split; reflexivity.
  - left. lra.
  - exfalso. lra.
  - left. exact Hrm.
Qed.

Lemma azimuth_pair_quasi_monotone
    (mp : MagParameters) (p_start p1 p2 A1 A2 : R) :
  0 < alpha mp -> 0 < p_start < PI -> 0 < p1 -> p1 < p2 -> p2 < PI ->
  calculate_azimuthal mp p_start p1 = Ok A1 ->
  calculate_azimuthal mp p_start p2 = Ok A2 ->
  A2 < A1 \/
  (Zfloor (raw_azimuth (alpha mp) p_start p2 / (2 * PI))
   < Zfloor (raw_azimuth (alpha mp) p_start p1 / (2 * PI)))%Z \/
  (A1 = 2 * PI /\ A2 = 2 * PI).
Proof.
  intros Ha Hs H1 H12 H2 HA1 HA2. pose proof PI_RGT_0 as Hpi.
  pose proof (raw_azimuth_decreasing _ _ _ _ Ha Hs H1 H12 H2) as Hraw.
  rewrite calculate_azimuthal_raw in HA1, HA2 by (try assumption; lra).
  apply Ok_inj in HA1. apply Ok_inj in HA2. subst A1 A2.
  set (r1 := raw_azimuth (alpha mp) p_start p1) in *.
  set (r2 := raw_azimuth (alpha mp) p_start p2) in *.
  assert (Hle : (Zfloor (r2 / (2 * PI)) <= Zfloor (r1 / (2 * PI)))%Z).
  { apply Zfloor_le. apply Rmult_le_compat_r; [|lra].
    apply Rlt_le, Rinv_0_lt_compat. lra. }
  destruct (Z.eq_dec (Zfloor (r2 / (2 * PI))) (Zfloor (r1 / (2 * PI)))) as [E|N].
  - destruct (float_mod_same_turn_order r1 r2 Hraw E) as [Hlt|Heq].
    + left. exact Hlt.
    + right. right. exact Heq.
  - right. left. lia.
Qed.

(** X18.  For a positive damping and polar angles [p1 < p2] inside
    (0, pi), the azimuth at [p2] is strictly smaller than the azimuth at
    [p1], unless the raw azimuth has passed into a lower turn between the
    two, or both azimuths are the boundary value [2*pi] of the float
    remainder. *)
Lemma azimuth_decreases_or_wraps (mp : MagParameters) (p_start p1 p2 : R) :
  0 < alpha mp -> 0 < p_start < PI -> 0 < p1 -> p1 < p2 -> p2 < PI ->
  exists A1 A2,
    calculate_azimuthal mp p_start p1 = Ok A1 /\
    calculate_azimuthal mp p_start p2 = Ok A2 /\
    (A2 < A1 \/
     (Zfloor (raw_azimuth (alpha mp) p_start p2 / (2 * PI))
      < Zfloor (raw_azimuth (alpha mp) p_start p1 / (2 * PI)))%Z \/
     (A1 = 2 * PI /\ A2 = 2 * PI)).
Proof.
  intros Ha Hs H1 H12 H2.
  assert (Ha0 : alpha mp <> 0) by lra.
  assert (Hq1 : 0 < p1 < PI) by (split; lra).
  assert (Hq2 : 0 < p2 < PI) by (split; lra).
  pose proof (calculate_azimuthal_raw mp p_start p1 Ha0 Hs Hq1) as HA1.
  pose proof (calculate_azimuthal_raw mp p_start p2 Ha0 Hs Hq2) as HA2.
  eexists. eexists. split; [exact HA1|]. split; [exact HA2|].
  exact (azimuth_pair_quasi_monotone _ _ _ _ _ _ Ha Hs H1 H12 H2 HA1 HA2).
Qed.

(** The strict decrease does fail at the boundary value: from the start
    angle 1, the azimuths at [1 + 2^-53] and at [1 + 2^-52] are both
    [2*pi]. *)
Lemma azimuth_can_stall_at_full_turn (h hk g : R) :
  calculate_azimuthal (mkMagParameters h hk 1 g) 1 (1 + / 2 ^ 53) = Ok (2 * PI) /\
  calculate_azimuthal (mkMagParameters h hk 1 g) 1 (1 + / 2 ^ 52) = Ok (2 * PI).
Proof.
  destruct PI_bounds as [Hp3 Hp4].
  pose proof adjacent_float_ratio as [Hpos Hle].
  assert (H52 : 0 < / 2 ^ 52 < 1).
  { assert (H1 : 1 < 2 ^ 52) by (apply Rlt_pow_R1; [lra|lia]).
    split; [apply Rinv_0_lt_compat; lra|].
    rewrite <- Rinv_1. apply Rinv_lt_contravar; lra. }
  assert (H53 : 0 < / 2 ^ 53 < / 2 ^ 52).
  { assert (H1 : 0 < 2 ^ 52) by (apply pow_lt; lra).
    replace (2 ^ 53) with (2 * 2 ^ 52) by (simpl; ring).
    split; [apply Rinv_0_lt_compat; lra|].
    apply Rinv_lt_contravar; [|lra]. apply Rmult_lt_0_compat; lra. }
  assert (Hr2 : - / 2 ^ 51 <= raw_azimuth 1 1 (1 + / 2 ^ 52) < 0).
  { unfold raw_azimuth. replace (-1 / 1) with (-1) by field. split; lra. }
  assert (Hs : 0 < 1 < PI) by lra.
  assert (Hdec : raw_azimuth 1 1 (1 + / 2 ^ 52) < raw_azimuth 1 1 (1 + / 2 ^ 53))
    by (apply raw_azimuth_decreasing; lra).
  assert (Hneg : raw_azimuth 1 1 (1 + / 2 ^ 53) < raw_azimuth 1 1 1)
    by (apply raw_azimuth_decreasing; lra).
  assert (Hzero : raw_azimuth 1 1 1 = 0).
  { unfold raw_azimuth.
    replace (tan (1 / 2) / tan (1 / 2)) with 1.
    - rewrite ln_1. ring.
    - field. assert (0 < tan (1 / 2)) by (apply tan_gt_0; lra). lra. }
  split.
  - rewrite calculate_azimuthal_raw; cbn [alpha]; try lra.
    f_equal. apply float_mod_tiny_negative; lra.
  - rewrite calculate_azimuthal_raw; cbn [alpha]; try lra.
    f_equal. apply float_mod_tiny_negative; lra.
Qed.

(** * Further properties of the solver *)

(** ** Wrapping into range *)

Lemma real_mod_add_periods (x y : R) (k : Z) :
  y <> 0 -> real_mod (x + IZR k * y) y = real_mod x y.
Proof.
  intros Hy. unfold real_mod.
  replace ((x + IZR k * y) / y) with (x / y + IZR k) by (field; exact Hy).
  rewrite Zfloor_addz, plus_IZR. ring.
Qed.

(** X1.  [azi_into_range] is periodic: shifting the argument by a whole
    number of turns does not change the result. *)
Theorem azi_into_range_periodic (x : R) (k : Z) :
  azi_into_range (x + IZR k * (2 * PI)) = azi_into_range x.
Proof.
  pose proof PI_RGT_0 as Hpi.
  rewrite !azi_into_range_ok. f_equal.
  unfold float_mod. rewrite real_mod_add_periods by lra. reflexivity.
Qed.

(** X2.  [azi_into_range] always returns, and its result lies in the
    closed range [[0, 2pi]].  A result below [2*pi] is left unchanged by a
    second application, so that wrapping twice is wrapping once; the
    boundary result [2*pi] is not: wrapped again it becomes 0. *)
Theorem azi_into_range_idempotent (x : R) :
  exists a,
    azi_into_range x = Ok a /\ 0 <= a <= 2 * PI /\
    (a < 2 * PI -> azi_into_range a = Ok a) /\
    azi_into_range (2 * PI) = Ok 0.
Proof.
  destruct PI_bounds as [Hp3 Hp4]. pose proof half_ulp_small as [Hh0 Hh1].
  exists (float_mod x (2 * PI)).
  split; [apply azi_into_range_ok|]. split; [apply float_mod_range|]. split.
  - intros Hlt. rewrite azi_into_range_ok. f_equal.
    pose proof (real_mod_bound x (2 * PI)) as Hb.
    assert (H2pi : 0 < 2 * PI) by lra. apply Hb in H2pi.
    destruct (float_mod_turn x) as [[_ E]|[Hgap E]].
    + rewrite E in Hlt. lra.
    + rewrite E. apply float_mod_exact; lra.
  - rewrite azi_into_range_ok. f_equal.
    replace (2 * PI) with (0 + IZR 1 * (2 * PI)) at 1 by ring.
    unfold float_mod. rewrite real_mod_add_periods by lra.
    fold (float_mod 0 (2 * PI)). apply float_mod_exact; lra.
Qed.

(** ** Composition of switching times *)

Lemma switching_time_formula_additive (mp : MagParameters) (p0 p1 p2 : R) :
  - H mp < Hk mp < H mp ->
  0 < p0 < PI -> 0 < p1 < PI -> 0 < p2 < PI ->
  switching_time_formula mp p0 p2 =
    switching_time_formula mp p0 p1 + switching_time_formula mp p1 p2.
Proof.
  intros Hf H0 H1 H2.
  rewrite !switching_time_formula_split by assumption. ring.
Qed.

(** X3.  Switching times add up along the path: with [|Hk| < H] and polar
    angles inside (0, pi), the time from [p0] to [p2] is the time from [p0]
    to [p1] plus the time from [p1] to [p2], wherever [p1] lies. *)
Theorem switching_time_additive (mp : MagParameters) (p0 p1 p2 : R) :
  - H mp < Hk mp < H mp -> gamma mp * alpha mp <> 0 ->
  0 < p0 < PI -> 0 < p1 < PI -> 0 < p2 < PI ->
  exists t01 t12,
    calculate_switching_time mp p0 p1 = Ok t01 /\
    calculate_switching_time mp p1 p2 = Ok t12 /\
    calculate_switching_time mp p0 p2 = Ok (t01 + t12).
Proof.
  intros Hf Hga H0 H1 H2.
  exists (switching_time_formula mp p0 p1), (switching_time_formula mp p1 p2).
  rewrite !switching_time_supercritical by assumption.
  repeat split. f_equal. apply switching_time_formula_additive; assumption.
Qed.

Lemma default_field_bounds :
  - H (mkMagParameters (11 / 10) 1 (1 / 100) 1)
    < Hk (mkMagParameters (11 / 10) 1 (1 / 100) 1)
    < H (mkMagParameters (11 / 10) 1 (1 / 100) 1).
Proof. cbn [H Hk]. split; lra. Defined.

Lemma default_gamma_alpha :
  gamma (mkMagParameters (11 / 10) 1 (1 / 100) 1)
  * alpha (mkMagParameters (11 / 10) 1 (1 / 100) 1) <> 0.
Proof. cbn [gamma alpha]. lra. Defined.

Lemma sample_angles :
  0 < PI / 18 < PI /\ 0 < PI / 3 < PI /\ 0 < 2 * PI / 3 < PI.
Proof. pose proof PI_RGT_0. repeat split; lra. Defined.

Lemma switching_time_additive_witness :
  exists t01 t12,
    calculate_switching_time (mkMagParameters (11 / 10) 1 (1 / 100) 1)
      (PI / 18) (2 * PI / 3) = Ok t01 /\
    calculate_switching_time (mkMagParameters (11 / 10) 1 (1 / 100) 1)
      (2 * PI / 3) (PI / 3) = Ok t12 /\
    calculate_switching_time (mkMagParameters (11 / 10) 1 (1 / 100) 1)
      (PI / 18) (PI / 3) = Ok (t01 + t12).
Proof.
  destruct sample_angles as (H0 & H1 & H2).
  exact (switching_time_additive _ _ _ _
           default_field_bounds default_gamma_alpha H0 H2 H1).
Defined.

(** X4.  Exchanging the start angle and the current angle negates the
    switching time. *)
Theorem switching_time_antisymmetric (mp : MagParameters) (p q : R) :
  - H mp < Hk mp < H mp -> gamma mp * alpha mp <> 0 ->
  0 < p < PI -> 0 < q < PI ->
  exists t,
    calculate_switching_time mp p q = Ok t /\
    calculate_switching_time mp q p = Ok (- t).
Proof.
  intros Hf Hga Hp Hq.
  exists (switching_time_formula mp p q).
  rewrite !switching_time_supercritical by assumption.
  split; [reflexivity|]. f_equal.
  rewrite !switching_time_formula_split by assumption. ring.
Qed.

Lemma switching_time_antisymmetric_witness :
  exists t,
    calculate_switching_time (mkMagParameters (11 / 10) 1 (1 / 100) 1)
      (PI / 18) (PI / 3) = Ok t /\
    calculate_switching_time (mkMagParameters (11 / 10) 1 (1 / 100) 1)
      (PI / 3) (PI / 18) = Ok (- t).
Proof.
  destruct sample_angles as (H0 & H1 & _).
  exact (switching_time_antisymmetric _ _ _
           default_field_bounds default_gamma_alpha H0 H1).
Defined.

(** ** Monotonicity beyond the equator *)

(** X5.  With [|Hk| < H], [alpha > 0] and [gamma > 0] the switching time is
    strictly increasing in [p_now] over the whole of (0, pi), the equator
    pi/2 included, for any start angle inside (0, pi); it is positive after
    the start angle and negative before it. *)
Theorem switching_time_increasing_through_equator
    (mp : MagParameters) (p_start p1 p2 : R) :
  - H mp < Hk mp < H mp -> 0 < alpha mp -> 0 < gamma mp ->
  0 < p_start < PI -> 0 < p1 -> p1 < p2 -> p2 < PI ->
  exists t1 t2,
    calculate_switching_time mp p_start p1 = Ok t1 /\
    calculate_switching_time mp p_start p2 = Ok t2 /\
    t1 < t2 /\
    (p_start <= p1 -> 0 <= t1 /\ 0 < t2) /\
    (p2 <= p_start -> t1 < 0 /\ t2 <= 0).
Proof.
  intros Hf Ha Hg Hs H1 H12 H2.
  assert (Hga : gamma mp * alpha mp <> 0)
    by (apply Rmult_integral_contrapositive_currified; lra).
  assert (Hq1 : 0 < p1 < PI) by (split; lra).
  assert (Hq2 : 0 < p2 < PI) by (split; lra).
  assert (Hzero : switching_time_formula mp p_start p_start = 0).
  { pose proof (switching_time_formula_additive mp p_start p_start p_start
                  Hf Hs Hs Hs) as E. lra. }
  pose proof (switching_time_formula_increasing mp p_start p1 p2
                Hf Ha Hg Hs H1 H12 H2) as Hinc.
  exists (switching_time_formula mp p_start p1),
         (switching_time_formula mp p_start p2).
  rewrite !switching_time_supercritical by assumption.
  split; [reflexivity|]. split; [reflexivity|]. split; [exact Hinc|].
  split.
  - intros [Hlt|Heq].
    + pose proof (switching_time_formula_increasing mp p_start p_start p1
                    Hf Ha Hg Hs (proj1 Hs) Hlt (proj2 Hq1)). lra.
    + subst p1. lra.
  - intros [Hlt|Heq].
    + pose proof (switching_time_formula_increasing mp p_start p2 p_start
                    Hf Ha Hg Hs (proj1 Hq2) Hlt (proj2 Hs)). lra.
    + subst p2. lra.
Qed.

Lemma switching_time_increasing_through_equator_witness :
  exists t1 t2,
    calculate_switching_time (mkMagParameters (11 / 10) 1 (1 / 100) 1)
      (PI / 18) (PI / 3) = Ok t1 /\
    calculate_switching_time (mkMagParameters (11 / 10) 1 (1 / 100) 1)
      (PI / 18) (2 * PI / 3) = Ok t2 /\
    t1 < t2 /\
    (PI / 18 <= PI / 3 -> 0 <= t1 /\ 0 < t2) /\
    (2 * PI / 3 <= PI / 18 -> t1 < 0 /\ t2 <= 0).
Proof.
  pose proof PI_RGT_0 as Hpi.
  destruct sample_angles as (H0 & H1 & H2).
  assert (Ha : 0 < alpha (mkMagParameters (11 / 10) 1 (1 / 100) 1))
    by (cbn [alpha]; lra).
  assert (Hg : 0 < gamma (mkMagParameters (11 / 10) 1 (1 / 100) 1))
    by (cbn [gamma]; lra).
  assert (H12 : PI / 3 < 2 * PI / 3) by lra.
  exact (switching_time_increasing_through_equator _ _ _ _
           default_field_bounds Ha Hg H0 (proj1 H1) H12 (proj2 H2)).
Defined.

(** X6.  The direction of time follows the sign of the gyromagnetic ratio:
    with [|Hk| < H], [alpha > 0] and [gamma < 0] the switching time is
    strictly decreasing in [p_now] over (0, pi). *)
Theorem switching_time_decreasing_for_negative_gamma
    (mp : MagParameters) (p_start p1 p2 : R) :
  - H mp < Hk mp < H mp -> 0 < alpha mp -> gamma mp < 0 ->
  0 < p_start < PI -> 0 < p1 -> p1 < p2 -> p2 < PI ->
  exists t1 t2,
    calculate_switching_time mp p_start p1 = Ok t1 /\
    calculate_switching_time mp p_start p2 = Ok t2 /\
    t2 < t1.
Proof.
  intros Hf Ha Hg Hs H1 H12 H2.
  assert (Hga : gamma mp * alpha mp < 0).
  { replace 0 with (0 * alpha mp) by ring. apply Rmult_lt_compat_r; assumption. }
  exists (switching_time_formula mp p_start p1),
         (switching_time_formula mp p_start p2).
  rewrite !switching_time_supercritical by (try assumption; try lra; split; lra).
  split; [reflexivity|]. split; [reflexivity|].
  rewrite !switching_time_formula_split by (try assumption; split; lra).
  pose proof (bracket_increases mp p1 p2 Hf H1 H12 H2) as Hb.
  assert (Hpre : (alpha mp ^ 2 + 1) / (gamma mp * alpha mp)
                 * (1 / (H mp ^ 2 - Hk mp ^ 2)) < 0).
  { destruct Hf as [Hlo Hhi].
    assert (Hd : 0 < 1 / (H mp ^ 2 - Hk mp ^ 2))
      by (apply Rdiv_lt_0_compat; nra).
    assert (Hn : (alpha mp ^ 2 + 1) / (gamma mp * alpha mp) < 0).
    { unfold Rdiv. replace 0 with ((alpha mp ^ 2 + 1) * 0) by ring.
      apply Rmult_lt_compat_l; [nra|].
      apply Rinv_lt_0_compat. exact Hga. }
    replace 0 with (0 * (1 / (H mp ^ 2 - Hk mp ^ 2))) by ring.
    apply Rmult_lt_compat_r; assumption. }
  apply Rmult_lt_gt_compat_neg_l; [exact Hpre|]. lra.
Qed.

Lemma switching_time_decreasing_for_negative_gamma_witness :
  exists t1 t2,
    calculate_switching_time (mkMagParameters 1 0 1 (-1)) (PI / 18) (PI / 3) = Ok t1 /\
    calculate_switching_time (mkMagParameters 1 0 1 (-1)) (PI / 18) (2 * PI / 3)
      = Ok t2 /\
    t2 < t1.
Proof.
  pose proof PI_RGT_0 as Hpi.
  destruct sample_angles as (H0 & H1 & H2).
  assert (Hf : - H (mkMagParameters 1 0 1 (-1)) < Hk (mkMagParameters 1 0 1 (-1))
               < H (mkMagParameters 1 0 1 (-1))) by (cbn [H Hk]; split; lra).
  assert (Ha : 0 < alpha (mkMagParameters 1 0 1 (-1))) by (cbn [alpha]; lra).
  assert (Hg : gamma (mkMagParameters 1 0 1 (-1)) < 0) by (cbn [gamma]; lra).
  assert (H12 : PI / 3 < 2 * PI / 3) by lra.
  exact (switching_time_decreasing_for_negative_gamma _ _ _ _
           Hf Ha Hg H0 (proj1 H1) H12 (proj2 H2)).
Defined.

(** ** Composition of azimuths *)

Lemma raw_azimuth_additive (a p0 p1 p2 : R) :
  0 < p0 < PI -> 0 < p1 < PI -> 0 < p2 < PI ->
  raw_azimuth a p0 p2 = raw_azimuth a p0 p1 + raw_azimuth a p1 p2.
Proof.
  intros H0 H1 H2. unfold raw_azimuth.
  rewrite !ln_quot by (apply tan_half_pos; assumption). ring.
Qed.

(** X7.  Azimuths add up along the path, modulo a full turn: the azimuth
    from [p0] to [p2] is the sum of the azimuths from [p0] to [p1] and from
    [p1] to [p2], put back into range, as long as neither of the two is the
    boundary value [2*pi] of the float remainder. *)
Theorem calculate_azimuthal_additive (mp : MagParameters) (p0 p1 p2 : R) :
  alpha mp <> 0 -> 0 < p0 < PI -> 0 < p1 < PI -> 0 < p2 < PI ->
  exists A01 A12 A02,
    calculate_azimuthal mp p0 p1 = Ok A01 /\
    calculate_azimuthal mp p1 p2 = Ok A12 /\
    calculate_azimuthal mp p0 p2 = Ok A02 /\
    (A01 < 2 * PI -> A12 < 2 * PI -> azi_into_range (A01 + A12) = Ok A02).
Proof.
  intros Ha H0 H1 H2. pose proof PI_RGT_0 as Hpi.
  exists (float_mod (raw_azimuth (alpha mp) p0 p1) (2 * PI)),
         (float_mod (raw_azimuth (alpha mp) p1 p2) (2 * PI)),
         (float_mod (raw_azimuth (alpha mp) p0 p2) (2 * PI)).
  rewrite !calculate_azimuthal_raw by assumption.
  repeat (split; [reflexivity|]).
  rewrite (raw_azimuth_additive (alpha mp) p0 p1 p2) by assumption.
  set (x := raw_azimuth (alpha mp) p0 p1). set (y := raw_azimuth (alpha mp) p1 p2).
  intros Hx Hy.
  destruct (float_mod_turn x) as [[_ Ex]|[_ Ex]]; [rewrite Ex in Hx; lra|].
  destruct (float_mod_turn y) as [[_ Ey]|[_ Ey]]; [rewrite Ey in Hy; lra|].
  rewrite Ex, Ey, azi_into_range_ok. f_equal.
  assert (Hrm : real_mod (real_mod x (2 * PI) + real_mod y (2 * PI)) (2 * PI)
                = real_mod (x + y) (2 * PI)).
  { unfold real_mod at 2 3.
    replace (x - 2 * PI * IZR (Zfloor (x / (2 * PI)))
             + (y - 2 * PI * IZR (Zfloor (y / (2 * PI)))))
      with (x + y
            + IZR (- Zfloor (x / (2 * PI)) - Zfloor (y / (2 * PI))) * (2 * PI)).
    - apply real_mod_add_periods. lra.
    - rewrite minus_IZR, opp_IZR. ring. }
  unfold float_mod. rewrite Hrm. reflexivity.
Qed.

Lemma calculate_azimuthal_additive_witness :
  exists A01 A12 A02,
    calculate_azimuthal (mkMagParameters (11 / 10) 1 (1 / 100) 1)
      (PI / 18) (PI / 3) = Ok A01 /\
    calculate_azimuthal (mkMagParameters (11 / 10) 1 (1 / 100) 1)
      (PI / 3) (2 * PI / 3) = Ok A12 /\
    calculate_azimuthal (mkMagParameters (11 / 10) 1 (1 / 100) 1)
      (PI / 18) (2 * PI / 3) = Ok A02 /\
    (A01 < 2 * PI -> A12 < 2 * PI -> azi_into_range (A01 + A12) = Ok A02).
Proof.
  destruct sample_angles as (H0 & H1 & H2).
  assert (Ha : alpha (mkMagParameters (11 / 10) 1 (1 / 100) 1) <> 0)
    by (cbn [alpha]; lra).
  exact (calculate_azimuthal_additive _ _ _ _ Ha H0 H1 H2).
Defined.

(** The exception is needed: going from 1 to [1 + 2^-52] and back, the
    first azimuth is [2*pi], the second a small positive [A], and their sum
    wraps to [A], not to the azimuth 0 of the whole path. *)
Lemma azimuth_sum_off_at_full_turn (h hk g : R) :
  exists A,
    calculate_azimuthal (mkMagParameters h hk 1 g) 1 (1 + / 2 ^ 52) = Ok (2 * PI) /\
    calculate_azimuthal (mkMagParameters h hk 1 g) (1 + / 2 ^ 52) 1 = Ok A /\
    calculate_azimuthal (mkMagParameters h hk 1 g) 1 1 = Ok 0 /\
    azi_into_range (2 * PI + A) = Ok A /\ 0 < A.
Proof.
  destruct PI_bounds as [Hp3 Hp4]. pose proof half_ulp_small as [Hh0 Hh1].
  pose proof adjacent_float_ratio as [Hpos Hle].
  assert (H52 : 0 < / 2 ^ 52 < 1).
  { assert (H1 : 1 < 2 ^ 52) by (apply Rlt_pow_R1; [lra|lia]).
    split; [apply Rinv_0_lt_compat; lra|].
    rewrite <- Rinv_1. apply Rinv_lt_contravar; lra. }
  assert (Hs : 0 < 1 < PI) by lra.
  assert (Hn : 0 < 1 + / 2 ^ 52 < PI) by lra.
  pose proof (tan_half_pos _ Hs) as Ht1. pose proof (tan_half_pos _ Hn) as Ht2.
  set (L := ln (tan ((1 + / 2 ^ 52) / 2) / tan (1 / 2))) in *.
  assert (Hback : raw_azimuth 1 (1 + / 2 ^ 52) 1 = L).
  { unfold raw_azimuth, L. rewrite !ln_quot by assumption. field. }
  assert (Hforth : raw_azimuth 1 1 (1 + / 2 ^ 52) = - L).
  { unfold raw_azimuth, L. field. }
  exists L. split; [|split; [|split; [|split]]].
  - rewrite calculate_azimuthal_raw; cbn [alpha]; try lra.
    f_equal. rewrite Hforth. apply float_mod_tiny_negative; lra.
  - rewrite calculate_azimuthal_raw; cbn [alpha]; try lra.
    f_equal. rewrite Hback. apply float_mod_exact; lra.
  - apply calculate_azimuthal_same_angle; cbn [alpha]; lra.
  - rewrite azi_into_range_ok. f_equal.
    replace (2 * PI + L) with (L + IZR 1 * (2 * PI)) by ring.
    unfold float_mod. rewrite real_mod_add_periods by lra.
    fold (float_mod L (2 * PI)). apply float_mod_exact; lra.
  - exact Hpos.
Qed.

(** ** The poles and the undamped case *)

Lemma tan_at_zero : Py.tan (0 / 2) = Ok 0.
Proof.
  replace (0 / 2) with 0 by field.
  rewrite tan_ok by (rewrite cos_0; lra). rewrite tan_0. reflexivity.
Qed.

(** X8.  At the pole 0 [calculate_azimuthal] fails: a start angle of 0
    makes the tangent ratio a division by zero, a current angle of 0 makes
    it 0, outside the domain of the logarithm. *)
Theorem calculate_azimuthal_at_pole (mp : MagParameters) (p : R) :
  alpha mp <> 0 -> 0 < p < PI ->
  calculate_azimuthal mp 0 p = Err ZeroDivisionError /\
  calculate_azimuthal mp p 0 = Err ValueError.
Proof.
  intros Ha Hp. pose proof (cos_half_pos _ Hp) as Hc.
  pose proof (tan_half_pos _ Hp) as Ht.
  unfold calculate_azimuthal. rewrite div_ok by assumption. cbn [bind].
  rewrite tan_at_zero, (tan_ok (p / 2)) by lra. cbn [bind].
  split.
  - rewrite div_zero by reflexivity. reflexivity.
  - rewrite div_ok by lra. cbn [bind].
    rewrite log_domain; [reflexivity|].
    unfold Rdiv. rewrite Rmult_0_l. lra.
Qed.

Lemma calculate_azimuthal_at_pole_witness :
  calculate_azimuthal (mkMagParameters (11 / 10) 1 (1 / 100) 1) 0 (PI / 18)
    = Err ZeroDivisionError /\
  calculate_azimuthal (mkMagParameters (11 / 10) 1 (1 / 100) 1) (PI / 18) 0
    = Err ValueError.
Proof.
  destruct sample_angles as (H0 & _).
  assert (Ha : alpha (mkMagParameters (11 / 10) 1 (1 / 100) 1) <> 0)
    by (cbn [alpha]; lra).
  exact (calculate_azimuthal_at_pole _ _ Ha H0).
Defined.

(** X9.  At the pole 0 [calculate_switching_time] fails in the same two
    ways, once its prefactor is defined. *)
Theorem calculate_switching_time_at_pole (mp : MagParameters) (p : R) :
  gamma mp * alpha mp <> 0 -> H mp ^ 2 - Hk mp ^ 2 <> 0 -> 0 < p < PI ->
  calculate_switching_time mp 0 p = Err ZeroDivisionError /\
  calculate_switching_time mp p 0 = Err ValueError.
Proof.
  intros Hga Hden Hp. pose proof (cos_half_pos _ Hp) as Hc.
  pose proof (tan_half_pos _ Hp) as Ht.
  unfold calculate_switching_time.
  rewrite (div_ok (alpha mp ^ 2 + 1)) by assumption. cbn [bind].
  rewrite (div_ok 1) by assumption. cbn [bind].
  rewrite tan_at_zero, (tan_ok (p / 2)) by lra. cbn [bind].
  split.
  - rewrite div_zero by reflexivity. reflexivity.
  - rewrite (div_ok 0) by lra. cbn [bind].
    rewrite log_domain; [reflexivity|].
    unfold Rdiv. rewrite Rmult_0_l. lra.
Qed.

Lemma calculate_switching_time_at_pole_witness :
  calculate_switching_time (mkMagParameters (11 / 10) 1 (1 / 100) 1) 0 (PI / 18)
    = Err ZeroDivisionError /\
  calculate_switching_time (mkMagParameters (11 / 10) 1 (1 / 100) 1) (PI / 18) 0
    = Err ValueError.
Proof.
  destruct sample_angles as (H0 & _).
  assert (Hden : H (mkMagParameters (11 / 10) 1 (1 / 100) 1) ^ 2
                 - Hk (mkMagParameters (11 / 10) 1 (1 / 100) 1) ^ 2 <> 0)
    by (cbn [H Hk]; lra).
  exact (calculate_switching_time_at_pole _ _ default_gamma_alpha Hden H0).
Defined.

(** ** Precession without anisotropy *)

(** X10.  Without anisotropy ([Hk = 0]) the two calculators describe a
    uniform precession: the azimuth returned is the switching time
    multiplied by [- gamma * H / (alpha^2 + 1)], wrapped into range. *)
Theorem azimuth_is_precession_without_anisotropy
    (mp : MagParameters) (p_start p_now : R) :
  Hk mp = 0 -> H mp <> 0 -> gamma mp * alpha mp <> 0 ->
  0 < p_start < PI -> 0 < p_now < PI ->
  exists t A,
    calculate_switching_time mp p_start p_now = Ok t /\
    calculate_azimuthal mp p_start p_now = Ok A /\
    azi_into_range (- (gamma mp * H mp / (alpha mp ^ 2 + 1)) * t) = Ok A.
Proof.
  intros Hk0 HH Hga Hs Hn.
  assert (Ha : alpha mp <> 0) by (intros E; apply Hga; rewrite E; ring).
  assert (Hg : gamma mp <> 0) by (intros E; apply Hga; rewrite E; ring).
  assert (Ha2 : alpha mp ^ 2 + 1 <> 0) by nra.
  exists (switching_time_formula mp p_start p_now),
         (float_mod (raw_azimuth (alpha mp) p_start p_now) (2 * PI)).
  split; [|split].
  - apply switching_time_defined; try assumption.
    unfold formula_defined. rewrite Hk0.
    repeat split; try assumption.
    + intros E. apply HH. nra.
    + intros E. apply HH. lra.
    + replace ((H mp - 0 * cos p_start) / (H mp - 0 * cos p_now)) with 1
        by (field; lra). lra.
  - apply calculate_azimuthal_raw; assumption.
  - rewrite azi_into_range_ok. f_equal. f_equal.
    unfold switching_time_formula, raw_azimuth. cbv zeta. rewrite Hk0.
    field. repeat split; assumption.
Qed.

Lemma azimuth_is_precession_without_anisotropy_witness :
  exists t A,
    calculate_switching_time (mkMagParameters 2 0 (1 / 100) 1) (PI / 18) (PI / 3)
      = Ok t /\
    calculate_azimuthal (mkMagParameters 2 0 (1 / 100) 1) (PI / 18) (PI / 3) = Ok A /\
    azi_into_range
      (- (gamma (mkMagParameters 2 0 (1 / 100) 1)
          * H (mkMagParameters 2 0 (1 / 100) 1)
          / (alpha (mkMagParameters 2 0 (1 / 100) 1) ^ 2 + 1)) * t) = Ok A.
Proof.
  destruct sample_angles as (H0 & H1 & _).
  assert (HH : H (mkMagParameters 2 0 (1 / 100) 1) <> 0) by (cbn [H]; lra).
  assert (Hga : gamma (mkMagParameters 2 0 (1 / 100) 1)
                * alpha (mkMagParameters 2 0 (1 / 100) 1) <> 0)
    by (cbn [gamma alpha]; lra).
  exact (azimuth_is_precession_without_anisotropy
           (mkMagParameters 2 0 (1 / 100) 1) _ _ eq_refl HH Hga H0 H1).
Defined.

(** ** Consecutive samples *)

Lemma adjacent_combine {A : Type} (rel : A -> A -> Prop) (l : list A) :
  adjacent rel l <->
  Forall (fun ab => rel (fst ab) (snd ab)) (combine l (tl l)).
Proof.
  induction l as [|x l IH]; cbn [adjacent tl].
  - split; intros _; [constructor|exact I].
  - destruct l as [|y l'].
    + cbn. split; intros _; [constructor|exact I].
    + cbn [combine]. cbn [tl] in IH. split.
      * intros [Hxy Hrest]. constructor; [exact Hxy|]. apply IH. exact Hrest.
      * intros Hall. inversion Hall as [|ab rest Hxy Hrest]; subst.
        split; [exact Hxy|]. apply IH. exact Hrest.
Qed.

Lemma adjacent_with_Forall {A : Type} (rel : A -> A -> Prop) (P : A -> Prop)
    (l : list A) :
  adjacent rel l -> Forall P l ->
  adjacent (fun x y => P x /\ rel x y /\ P y) l.
Proof.
  induction l as [|x l IH]; cbn [adjacent]; [trivial|].
  destruct l as [|y l']; [trivial|].
  intros [Hxy Hrest] Hall.
  inversion Hall as [|x0 l0 Hx Hall']; subst.
  inversion Hall' as [|y0 l1 Hy _]; subst.
  split; [repeat split; assumption|]. apply IH; assumption.
Qed.

Lemma adjacent_map_seq_app {A : Type} (rel : A -> A -> Prop) (f : nat -> A)
    (stop : A) (n a : nat) :
  (forall i, (a <= i)%nat -> (S i < a + n)%nat -> rel (f i) (f (S i))) ->
  ((1 <= n)%nat -> rel (f (a + n - 1)%nat) stop) ->
  adjacent rel (map f (seq a n) ++ [stop]).
Proof.
  revert a. induction n as [|n IH]; intros a Hstep Hlast.
  - cbn. exact I.
  - cbn [seq map app adjacent].
    destruct n as [|n'].
    + cbn. split; [|exact I].
      replace a with (a + 1 - 1)%nat at 1 by lia. apply Hlast. lia.
    + assert (Htail : adjacent rel (map f (seq (S a) (S n')) ++ [stop])).
      { apply IH.
        - intros i Hi Hlt. apply Hstep; lia.
        - intros _. replace (S a + S n' - 1)%nat with (a + S (S n') - 1)%nat by lia.
          apply Hlast. lia. }
      cbn [seq map app] in Htail |- *.
      split; [|exact Htail]. apply Hstep; lia.
Qed.

Lemma mapM_adjacent {A B : Type} (f : A -> result B)
    (relA : A -> A -> Prop) (relB : B -> B -> Prop) (l : list A) (ys : list B) :
  (forall x x' y y', relA x x' -> f x = Ok y -> f x' = Ok y' -> relB y y') ->
  adjacent relA l -> mapM f l = Ok ys -> adjacent relB ys.
Proof.
  intros Hrel. revert ys. induction l as [|x l IH]; intros ys Hadj Hm.
  - cbn in Hm. apply Ok_inj in Hm. subst ys. exact I.
  - cbn [mapM] in Hm.
    destruct (f x) as [y|e] eqn:Hy; cbn [bind] in Hm; [|discriminate Hm].
    destruct (mapM f l) as [ys'|e] eqn:Hys; cbn [bind] in Hm; [|discriminate Hm].
    apply Ok_inj in Hm. subst ys.
    destruct l as [|x' l'].
    + cbn in Hys. apply Ok_inj in Hys. subst ys'. exact I.
    + cbn [adjacent] in Hadj. destruct Hadj as [Hxx' Hrest].
      specialize (IH ys' Hrest eq_refl).
      cbn [mapM] in Hys.
      destruct (f x') as [y'|e] eqn:Hy'; cbn [bind] in Hys; [|discriminate Hys].
      destruct (mapM f l') as [ys''|e]; cbn [bind] in Hys; [|discriminate Hys].
      apply Ok_inj in Hys. subst ys'.
      cbn [adjacent]. split; [|exact IH].
      exact (Hrel x x' y y' Hxx' Hy Hy').
Qed.

(** The samples of an increasing range increase. *)
Lemma linspace_increasing (start stop : R) (num : Z) (pols : list R) :
  start < stop -> linspace start stop num = Ok pols ->
  adjacent Rlt pols.
Proof.
  intros Hlt. unfold linspace.
  destruct (Z.ltb_spec num 0) as [Hneg|_]; [discriminate|].
  destruct (Z.to_nat num) as [|[|k]]; intros Hl; apply Ok_inj in Hl; subst pols.
  - exact I.
  - exact I.
  - set (n := S k).
    assert (Hn : 0 < INR n) by (apply lt_0_INR; unfold n; lia).
    assert (Hstep : 0 < (stop - start) / INR n) by (apply Rdiv_lt_0_compat; lra).
    assert (E : stop = INR n * ((stop - start) / INR n) + start) by (field; lra).
    assert (Hk : INR n = INR k + 1) by (unfold n; apply S_INR).
    set (step := (stop - start) / INR n) in *.
    apply adjacent_map_seq_app.
    + intros i _ _. cbv beta. rewrite S_INR.
      apply Rplus_lt_compat_r. apply Rmult_lt_compat_r; [exact Hstep|lra].
    + intros _. replace (0 + n - 1)%nat with k by (unfold n; lia).
      cbv beta. rewrite E at 1. rewrite Hk.
      apply Rplus_lt_compat_r. apply Rmult_lt_compat_r; [exact Hstep|lra].
Qed.

(** ** Generated trajectories *)

(** X11.  Every point of a trajectory returned by [generate_dynamics] has
    radius 1 and an azimuth in the closed range [[0, 2pi]], and the polar
    angles of the points are exactly the samples of [linspace]. *)
Theorem generated_points_on_unit_sphere
    (mp : MagParameters) (start_angle end_angle : R) (steps : Z)
    (sphs : list SphPoint) (times : list R) :
  generate_dynamics mp start_angle end_angle steps = Ok (sphs, times) ->
  linspace start_angle end_angle steps = Ok (map pol sphs) /\
  Forall (fun sph => r sph = 1 /\ 0 <= azi sph <= 2 * PI) sphs.
Proof.
  intros Hgd. pose proof (generated_azimuths_in_range _ _ _ _ _ _ Hgd) as Hr.
  destruct (generate_dynamics_inv _ _ _ _ _ _ Hgd)
    as (pols & azis & Hl & Hazis & Hts & Hs).
  pose proof (mapM_length _ _ _ Hazis) as Hlen.
  split.
  - rewrite Hs, sph_points_pol by exact Hlen. exact Hl.
  - rewrite Forall_forall in Hr |- *. intros sph Hin.
    split; [|apply Hr; exact Hin].
    rewrite Hs in Hin. apply in_map_iff in Hin.
    destruct Hin as ([a p] & <- & _). reflexivity.
Qed.

Lemma generated_points_on_unit_sphere_witness :
  exists sphs times,
    generate_dynamics (mkMagParameters (11 / 10) 1 (1 / 100) 1)
      (PI / 18) (17 * PI / 18) 1000 = Ok (sphs, times) /\
    linspace (PI / 18) (17 * PI / 18) 1000 = Ok (map pol sphs) /\
    Forall (fun sph => r sph = 1 /\ 0 <= azi sph <= 2 * PI) sphs.
Proof.
  destruct default_angles as [Hs He].
  destruct (generate_dynamics_total (mkMagParameters (11 / 10) 1 (1 / 100) 1)
              (PI / 18) (17 * PI / 18) 1000
              default_params_wf default_field_supercritical Hs He)
    as (sphs & times & Hgd); [lia|].
  exists sphs, times. split; [exact Hgd|].
  exact (generated_points_on_unit_sphere _ _ _ _ _ _ Hgd).
Defined.

(** X12.  A generated trajectory starts at time zero: on a parameter set
    of the data model with [H > Hk], polar angles inside (0, pi) and at
    least one step, the first point is [(1, 0, start_angle)] and the first
    time is 0. *)
Theorem generated_trajectory_starts_at_zero
    (mp : MagParameters) (start_angle end_angle : R) (steps : Z) :
  wf_params mp -> H mp > Hk mp ->
  0 < start_angle < PI -> 0 < end_angle < PI -> (1 <= steps)%Z ->
  exists rest_sphs rest_times,
    generate_dynamics mp start_angle end_angle steps =
      Ok (mkSphPoint 1 0 start_angle :: rest_sphs, 0 :: rest_times).
Proof.
  intros Hwf Hsup Hs He Hn.
  destruct (generate_dynamics_total mp start_angle end_angle steps
              Hwf Hsup Hs He) as (sphs & times & Hgd); [lia|].
  rewrite Hgd.
  destruct (generate_dynamics_inv _ _ _ _ _ _ Hgd)
    as (pols & azis & Hl & Hazis & Hts & ->).
  destruct (linspace_first _ _ _ _ Hn Hl) as [rest ->].
  destruct (supercritical_prefactor mp Hwf Hsup) as [Hga Hden].
  pose proof (supercritical_field_term mp start_angle Hwf Hsup) as Hb.
  cbn [mapM] in Hazis, Hts.
  rewrite calculate_azimuthal_same_angle in Hazis
    by (try assumption; destruct Hwf as (_ & _ & Ha & _); lra).
  rewrite switching_time_same_angle in Hts by (try assumption; lra).
  cbn [bind] in Hazis, Hts.
  destruct (mapM (calculate_azimuthal mp start_angle) rest) as [azis'|e];
    cbn [bind] in Hazis; [|discriminate Hazis].
  destruct (mapM (calculate_switching_time mp start_angle) rest) as [ts'|e];
    cbn [bind] in Hts; [|discriminate Hts].
  apply Ok_inj in Hazis. apply Ok_inj in Hts. subst azis times.
  cbn [combine map]. eexists. eexists. reflexivity.
Qed.

Lemma generated_trajectory_starts_at_zero_witness :
  exists rest_sphs rest_times,
    generate_dynamics (mkMagParameters (11 / 10) 1 (1 / 100) 1)
      (PI / 18) (17 * PI / 18) 1000 =
      Ok (mkSphPoint 1 0 (PI / 18) :: rest_sphs, 0 :: rest_times).
Proof.
  destruct default_angles as [Hs He].
  assert (Hn : (1 <= 1000)%Z) by lia.
  exact (generated_trajectory_starts_at_zero _ _ _ _
           default_params_wf default_field_supercritical Hs He Hn).
Defined.

(** X13.  [test_increasing_time] passes on every trajectory generated over
    an increasing range: with [H > Hk >= 0], [alpha > 0], [gamma > 0] and
    [0 < start_angle < end_angle < pi], the trajectory is returned and each
    time is larger than the one before, for any number of steps. *)
Theorem generated_times_increase
    (mp : MagParameters) (start_angle end_angle : R) (steps : Z) :
  0 <= Hk mp < H mp -> 0 < alpha mp -> 0 < gamma mp ->
  0 < start_angle -> start_angle < end_angle -> end_angle < PI ->
  (0 <= steps)%Z ->
  exists sphs times,
    generate_dynamics mp start_angle end_angle steps = Ok (sphs, times) /\
    test_increasing_time times.
Proof.
  intros [Hk0 HkH] Ha Hg Hs0 Hse He Hn.
  assert (Hwf : wf_params mp) by (unfold wf_params; repeat split; lra).
  assert (Hf : - H mp < Hk mp < H mp) by (split; lra).
  assert (Hs : 0 < start_angle < PI) by (split; lra).
  assert (He' : 0 < end_angle < PI) by (split; lra).
  assert (Hga : gamma mp * alpha mp <> 0)
    by (apply Rmult_integral_contrapositive_currified; lra).
  destruct (generate_dynamics_total mp start_angle end_angle steps
              Hwf HkH Hs He' Hn) as (sphs & times & Hgd).
  exists sphs, times. split; [exact Hgd|].
  destruct (generate_dynamics_inv _ _ _ _ _ _ Hgd)
    as (pols & azis & Hl & _ & Hts & _).
  pose proof (linspace_increasing _ _ _ _ Hse Hl) as Hinc.
  pose proof (linspace_polar _ _ _ _ Hs He' Hl) as Hpol.
  pose proof (adjacent_with_Forall _ _ _ Hinc Hpol) as Hadj.
  unfold test_increasing_time.
  apply (adjacent_combine (fun t t' => t' > t)).
  eapply mapM_adjacent; [|exact Hadj|exact Hts].
  intros p p' t t' (Hp & Hlt & Hp') Ht Ht'.
  rewrite switching_time_supercritical in Ht, Ht' by assumption.
  apply Ok_inj in Ht. apply Ok_inj in Ht'. subst t t'.
  apply switching_time_formula_increasing; try assumption; lra.
Qed.

Lemma generated_times_increase_witness :
  exists sphs times,
    generate_dynamics (mkMagParameters (11 / 10) 1 (1 / 100) 1)
      (PI / 18) (17 * PI / 18) 1000 = Ok (sphs, times) /\
    test_increasing_time times.
Proof.
  pose proof PI_RGT_0 as Hpi.
  assert (Hf : 0 <= Hk (mkMagParameters (11 / 10) 1 (1 / 100) 1)
                 < H (mkMagParameters (11 / 10) 1 (1 / 100) 1))
    by (cbn [H Hk]; split; lra).
  assert (Ha : 0 < alpha (mkMagParameters (11 / 10) 1 (1 / 100) 1))
    by (cbn [alpha]; lra).
  assert (Hg : 0 < gamma (mkMagParameters (11 / 10) 1 (1 / 100) 1))
    by (cbn [gamma]; lra).
  assert (Hs : 0 < PI / 18) by lra.
  assert (Hse : PI / 18 < 17 * PI / 18) by lra.
  assert (He : 17 * PI / 18 < PI) by lra.
  assert (Hn : (0 <= 1000)%Z) by lia.
  exact (generated_times_increase _ _ _ _ Hf Ha Hg Hs Hse He Hn).
Defined.

(** ** Errors through the trajectory *)

Lemma linspace_starts (start stop : R) (num : Z) :
  (1 <= num)%Z -> exists rest, linspace start stop num = Ok (start :: rest).
Proof.
  intros Hn.
  destruct (linspace_length start stop num) as (pols & Hl & _); [lia|].
  destruct (linspace_first _ _ _ _ Hn Hl) as [rest ->].
  exists rest. exact Hl.
Qed.

(** X14.  The undamped case is outside the solver: with [alpha = 0] both
    calculators raise [ZeroDivisionError] at every pair of angles, and so
    does [generate_dynamics] for any range and at least one step. *)
Theorem undamped_parameters_raise
    (mp : MagParameters) (start_angle end_angle : R) (steps : Z) :
  alpha mp = 0 -> (1 <= steps)%Z ->
  (forall p_start p_now,
     calculate_switching_time mp p_start p_now = Err ZeroDivisionError) /\
  (forall p_start p_now,
     calculate_azimuthal mp p_start p_now = Err ZeroDivisionError) /\
  generate_dynamics mp start_angle end_angle steps = Err ZeroDivisionError.
Proof.
  intros Ha Hn.
  assert (Hazi : forall p_start p_now,
             calculate_azimuthal mp p_start p_now = Err ZeroDivisionError).
  { intros p_start p_now. unfold calculate_azimuthal.
    rewrite div_zero by exact Ha. reflexivity. }
  split; [|split].
  - intros p_start p_now. unfold calculate_switching_time.
    rewrite div_zero by (rewrite Ha; ring). reflexivity.
  - exact Hazi.
  - destruct (linspace_starts start_angle end_angle steps Hn) as [rest Hl].
    unfold generate_dynamics. rewrite Hl. cbn [bind mapM].
    rewrite Hazi. reflexivity.
Qed.

Lemma undamped_parameters_raise_witness :
  (forall p_start p_now,
     calculate_switching_time (mkMagParameters (11 / 10) 1 0 1) p_start p_now
       = Err ZeroDivisionError) /\
  (forall p_start p_now,
     calculate_azimuthal (mkMagParameters (11 / 10) 1 0 1) p_start p_now
       = Err ZeroDivisionError) /\
  generate_dynamics (mkMagParameters (11 / 10) 1 0 1) (PI / 18) (17 * PI / 18) 1000
    = Err ZeroDivisionError.
Proof.
  assert (Hn : (1 <= 1000)%Z) by lia.
  exact (undamped_parameters_raise (mkMagParameters (11 / 10) 1 0 1)
           (PI / 18) (17 * PI / 18) 1000 eq_refl Hn).
Defined.

(** X15.  A trajectory cannot start at the pole: with [start_angle = 0], a
    non-zero damping and at least one step, [generate_dynamics] raises
    [ZeroDivisionError] on its first sample, whatever the end angle. *)
Theorem generate_dynamics_from_pole
    (mp : MagParameters) (end_angle : R) (steps : Z) :
  alpha mp <> 0 -> (1 <= steps)%Z ->
  generate_dynamics mp 0 end_angle steps = Err ZeroDivisionError.
Proof.
  intros Ha Hn.
  destruct (linspace_starts 0 end_angle steps Hn) as [rest Hl].
  unfold generate_dynamics. rewrite Hl. cbn [bind mapM].
  unfold calculate_azimuthal at 1.
  rewrite div_ok by exact Ha. cbn [bind].
  rewrite tan_at_zero. cbn [bind].
  rewrite div_zero by reflexivity. reflexivity.
Qed.

Lemma generate_dynamics_from_pole_witness :
  generate_dynamics (mkMagParameters (11 / 10) 1 (1 / 100) 1) 0 (17 * PI / 18) 1000
    = Err ZeroDivisionError.
Proof.
  assert (Ha : alpha (mkMagParameters (11 / 10) 1 (1 / 100) 1) <> 0)
    by (cbn [alpha]; lra).
  assert (Hn : (1 <= 1000)%Z) by lia.
  exact (generate_dynamics_from_pole _ (17 * PI / 18) 1000 Ha Hn).
Defined.

(** ** The equivalence mapper *)

(** X16.  [calculate_equivalent_dynamics] raises [IndexError] on an empty
    list.  On a non-empty list of polar angles inside (0, pi), and a
    parameter set of the data model with [H > Hk], it returns sequences
    that both start with 0: the first angle is the reference. *)
Theorem equivalent_dynamics_reference
    (mp : MagParameters) (p0 : R) (rest : list R) :
  wf_params mp -> H mp > Hk mp ->
  Forall (fun p => 0 < p < PI) (p0 :: rest) ->
  calculate_equivalent_dynamics mp [] = Err IndexError /\
  exists ts azs,
    calculate_equivalent_dynamics mp (p0 :: rest) = Ok (0 :: ts, 0 :: azs).
Proof.
  intros Hwf Hsup Hpol. split; [reflexivity|].
  assert (Hp0 : 0 < p0 < PI) by (inversion Hpol; assumption).
  destruct (equivalent_dynamics_total mp (p0 :: rest) Hwf Hsup) as (ts & azs & Hced);
    [discriminate|exact Hpol|].
  rewrite Hced. revert Hced.
  destruct (supercritical_prefactor mp Hwf Hsup) as [Hga Hden].
  pose proof (supercritical_field_term mp p0 Hwf Hsup) as Hb.
  unfold calculate_equivalent_dynamics. cbn [mapM].
  rewrite switching_time_same_angle by (try assumption; lra).
  rewrite calculate_azimuthal_same_angle
    by (try assumption; destruct Hwf as (_ & _ & Ha & _); lra).
  cbn [bind].
  destruct (mapM (calculate_switching_time mp p0) rest) as [ts'|e];
    cbn [bind]; [|discriminate].
  destruct (mapM (calculate_azimuthal mp p0) rest) as [azs'|e];
    cbn [bind]; [|discriminate].
  intros E. apply Ok_inj in E. injection E as <- <-.
  eexists. eexists. reflexivity.
Qed.

Lemma equivalent_dynamics_reference_witness :
  calculate_equivalent_dynamics (mkMagParameters (11 / 10) 1 (1 / 100) 1) []
    = Err IndexError /\
  exists ts azs,
    calculate_equivalent_dynamics (mkMagParameters (11 / 10) 1 (1 / 100) 1)
      [PI / 18; PI / 3; 2 * PI / 3] = Ok (0 :: ts, 0 :: azs).
Proof.
  destruct sample_angles as (H0 & H1 & H2).
  assert (Hpol : Forall (fun p => 0 < p < PI) [PI / 18; PI / 3; 2 * PI / 3])
    by (repeat (apply Forall_cons; [assumption|]); apply Forall_nil).
  exact (equivalent_dynamics_reference _ _ _
           default_params_wf default_field_supercritical Hpol).
Defined.

Lemma mapM_prefix {A B : Type} (f : A -> result B) (l1 l2 : list A) (ys : list B) :
  mapM f (l1 ++ l2) = Ok ys -> mapM f l1 = Ok (firstn (length l1) ys).
Proof.
  revert ys. induction l1 as [|x l1 IH]; intros ys Hm.
  - reflexivity.
  - cbn [app mapM] in Hm |- *.
    destruct (f x) as [y|e]; cbn [bind] in Hm |- *; [|discriminate Hm].
    destruct (mapM f (l1 ++ l2)) as [ys'|e]; cbn [bind] in Hm; [|discriminate Hm].
    apply Ok_inj in Hm. subst ys.
    rewrite (IH ys' eq_refl). reflexivity.
Qed.

(** X17.  Later samples do not change earlier answers: when
    [calculate_equivalent_dynamics] returns on a list of polar angles, it
    returns on every non-empty prefix of the list, with the prefixes of the
    same times and azimuths. *)
Theorem equivalent_dynamics_prefix
    (mp : MagParameters) (polars more exact_times exact_azis : list R) :
  polars <> [] ->
  calculate_equivalent_dynamics mp (polars ++ more) = Ok (exact_times, exact_azis) ->
  calculate_equivalent_dynamics mp polars =
    Ok (firstn (length polars) exact_times, firstn (length polars) exact_azis).
Proof.
  intros Hne. destruct polars as [|p0 rest]; [contradiction|].
  unfold calculate_equivalent_dynamics. cbn [app].
  change (p0 :: rest ++ more) with ((p0 :: rest) ++ more).
  destruct (mapM (calculate_switching_time mp p0) ((p0 :: rest) ++ more))
    as [ts|e] eqn:Hts; cbn [bind]; [|discriminate].
  destruct (mapM (calculate_azimuthal mp p0) ((p0 :: rest) ++ more))
    as [azs|e] eqn:Hazs; cbn [bind]; [|discriminate].
  intros E. apply Ok_inj in E. injection E as <- <-.
  rewrite (mapM_prefix _ _ _ _ Hts). cbn [bind].
  rewrite (mapM_prefix _ _ _ _ Hazs). reflexivity.
Qed.

Lemma equivalent_dynamics_prefix_witness :
  exists exact_times exact_azis,
    calculate_equivalent_dynamics (mkMagParameters (11 / 10) 1 (1 / 100) 1)
      ([PI / 18; PI / 3] ++ [2 * PI / 3]) = Ok (exact_times, exact_azis) /\
    calculate_equivalent_dynamics (mkMagParameters (11 / 10) 1 (1 / 100) 1)
      [PI / 18; PI / 3] =
      Ok (firstn 2 exact_times, firstn 2 exact_azis).
Proof.
  destruct sample_angles as (H0 & H1 & H2).
  assert (Hpol : Forall (fun p => 0 < p < PI) ([PI / 18; PI / 3] ++ [2 * PI / 3]))
    by (cbn [app]; repeat (apply Forall_cons; [assumption|]); apply Forall_nil).
  assert (Hne : [PI / 18; PI / 3] ++ [2 * PI / 3] <> []) by discriminate.
  destruct (equivalent_dynamics_total _ _
              default_params_wf default_field_supercritical Hne Hpol)
    as (ts & azs & Hced).
  exists ts, azs. split; [exact Hced|].
  assert (Hne' : [PI / 18; PI / 3] <> []) by discriminate.
  exact (equivalent_dynamics_prefix _ _ _ _ _ Hne' Hced).
Defined.

Lemma azimuth_decreases_or_wraps_witness :
  exists A1 A2,
    calculate_azimuthal (mkMagParameters (11 / 10) 1 (1 / 100) 1)
      (PI / 18) (PI / 3) = Ok A1 /\
    calculate_azimuthal (mkMagParameters (11 / 10) 1 (1 / 100) 1)
      (PI / 18) (2 * PI / 3) = Ok A2 /\
    (A2 < A1 \/
     (Zfloor (raw_azimuth (alpha (mkMagParameters (11 / 10) 1 (1 / 100) 1))
                (PI / 18) (2 * PI / 3) / (2 * PI))
      < Zfloor (raw_azimuth (alpha (mkMagParameters (11 / 10) 1 (1 / 100) 1))
                  (PI / 18) (PI / 3) / (2 * PI)))%Z \/
     (A1 = 2 * PI /\ A2 = 2 * PI)).
Proof.
  pose proof PI_RGT_0 as Hpi.
  destruct sample_angles as (H0 & H1 & H2).
  assert (Ha : 0 < alpha (mkMagParameters (11 / 10) 1 (1 / 100) 1))
    by (cbn [alpha]; lra).
  assert (H12 : PI / 3 < 2 * PI / 3) by lra.
  exact (azimuth_decreases_or_wraps _ _ _ _ Ha H0 (proj1 H1) H12 (proj2 H2)).
Defined.

(** ** Consecutive azimuths *)








